(** * Table-entry storage of the fabric-sim P4Runtime simulator

    A shallow embedding of [pkg/simulator/entries/table.go] and the
    properties of its canonical keys, its insert / modify / remove contract,
    its direct-resource overlays and its batched reads.

    Go pointers to protobuf messages that the code shares with its callers
    ([*p4info.Table], [*p4api.TableEntry]) are locations of an explicit heap:
    [sort.SliceStable] reorders the caller's slices in place and a [Row] keeps
    the very pointer it was given.  A nil dereference is a run-time panic,
    the [None] of the monad [M]. *)

From Stdlib Require Import ZArith List Strings.Byte Strings.String Lia.
From stdpp Require Import gmap strings list fin_maps sorting.
Import ListNotations.
Open Scope Z_scope.

(** ** crypto/sha1

    The digest of the Go standard library (FIPS 180-4), on 32-bit words kept
    as [Z] and reduced after every addition and rotation. *)

Module Sha1.

Definition w32 (x : Z) : Z := Z.land x 0xffffffff.
Definition rotl (n x : Z) : Z := w32 (Z.lor (Z.shiftl x n) (Z.shiftr x (32 - n))).
Definition add32 (x y : Z) : Z := w32 (x + y).

Definition byteZ (b : byte) : Z := Z.of_N (Byte.to_N b).
Definition Zbyte (z : Z) : byte :=
  match Byte.of_N (Z.to_N (Z.land z 0xff)) with Some b => b | None => x00 end.

Definition be32 (x : Z) : list byte :=
  [Zbyte (Z.shiftr x 24); Zbyte (Z.shiftr x 16); Zbyte (Z.shiftr x 8); Zbyte x].
Definition be64 (x : Z) : list byte := be32 (Z.shiftr x 32) ++ be32 x.

Definition pad (msg : list byte) : list byte :=
  let len := Z.of_nat (length msg) in
  let k := Z.to_nat ((55 - len) mod 64) in
  msg ++ x80 :: repeat x00 k ++ be64 (8 * len).

Fixpoint words (n : nat) (bs : list byte) : list Z :=
  match n, bs with
  | S n', b0 :: b1 :: b2 :: b3 :: bs' =>
      (Z.shiftl (byteZ b0) 24 + Z.shiftl (byteZ b1) 16 + Z.shiftl (byteZ b2) 8 + byteZ b3)
        :: words n' bs'
  | _, _ => []
  end.

(* ws holds the schedule so far, newest word first *)
Fixpoint schedule (n : nat) (ws : list Z) : list Z :=
  match n with
  | O => ws
  | S n' =>
      let w := rotl 1 (Z.lxor (Z.lxor (nth 2 ws 0) (nth 7 ws 0))
                              (Z.lxor (nth 13 ws 0) (nth 15 ws 0))) in
      schedule n' (w :: ws)
  end.

Definition state : Type := Z * Z * Z * Z * Z.

Definition init : state :=
  (0x67452301, 0xEFCDAB89, 0x98BADCFE, 0x10325476, 0xC3D2E1F0).

Definition f (t : nat) (b c d : Z) : Z :=
  if (t <? 20)%nat then Z.lor (Z.land b c) (Z.land (w32 (Z.lnot b)) d)
  else if (t <? 40)%nat then Z.lxor (Z.lxor b c) d
  else if (t <? 60)%nat then Z.lor (Z.lor (Z.land b c) (Z.land b d)) (Z.land c d)
  else Z.lxor (Z.lxor b c) d.

Definition K (t : nat) : Z :=
  if (t <? 20)%nat then 0x5A827999
  else if (t <? 40)%nat then 0x6ED9EBA1
  else if (t <? 60)%nat then 0x8F1BBCDC
  else 0xCA62C1D6.

Fixpoint rounds (t : nat) (ws : list Z) (s : state) : state :=
  match ws with
  | [] => s
  | w :: ws' =>
      let '(a, b, c, d, e) := s in
      let tmp := add32 (add32 (add32 (add32 (rotl 5 a) (f t b c d)) e) (K t)) w in
      rounds (S t) ws' (tmp, a, rotl 30 b, c, d)
  end.

Definition block (s : state) (bs : list byte) : state :=
  let ws := rev (schedule 64 (rev (words 16 bs))) in
  let '(h0, h1, h2, h3, h4) := s in
  let '(a, b, c, d, e) := rounds 0 ws s in
  (add32 h0 a, add32 h1 b, add32 h2 c, add32 h3 d, add32 h4 e).

Fixpoint blocks (n : nat) (s : state) (bs : list byte) : state :=
  match n with
  | O => s
  | S n' => blocks n' (block s (firstn 64 bs)) (skipn 64 bs)
  end.

Definition sum (msg : list byte) : list byte :=
  let p := pad msg in
  let '(h0, h1, h2, h3, h4) := blocks (length p / 64) init p in
  be32 h0 ++ be32 h1 ++ be32 h2 ++ be32 h3 ++ be32 h4.

End Sha1.

(** The [hash.Hash] interface, as far as [entryKey] and [writeHash] use it:
    [Write] feeds bytes and never fails, [Sum] appends the digest of
    everything written so far to its argument. *)
Class Hash (H : Type) := { Write : H -> list byte -> H;
                           Sum : H -> list byte -> list byte }.

(** The value [sha1.New()] returns, seen through the bytes written to it. *)
Record sha1_digest := mk_sha1 { written : list byte }.

#[global] Instance sha1_Hash : Hash sha1_digest :=
  {| Write := fun h p => mk_sha1 (written h ++ p);
     Sum := fun h b => b ++ Sha1.sum (written h) |}.

Definition sha1_New : sha1_digest := mk_sha1 [].

(** ** Messages of p4info and p4api

    Only the fields this package reads or that the properties mention are
    kept; integers are [Z] whatever their Go width, since the package only
    compares them (the one exception is [writeHash]). *)

Definition loc := positive.

Module p4info.

Module Preamble.
Record t := mk { Id : Z; Name : string }.
End Preamble.

Module MatchField.
Record t := mk { Id : Z; Name : string; Bitwidth : Z }.
End MatchField.

Module Table.
Record t := mk { Preamble : Preamble.t; MatchFields : list MatchField.t; Size : Z }.
Definition with_MatchFields (mfs : list MatchField.t) (x : t) : t :=
  mk (Preamble x) mfs (Size x).
End Table.

End p4info.

Module p4api.

Module FieldMatch.
(** The oneof [field_match_type]; [Other] is its sixth, untyped member. *)
Inductive isFieldMatch_FieldMatchType :=
| Exact_ (Value : list byte)
| Ternary_ (Value Mask : list byte)
| Lpm_ (Value : list byte) (PrefixLen : Z)
| Range_ (Low High : list byte)
| Optional_ (Value : list byte)
| Other_ (any : list byte).

Module Exact.
Record t := mk { Value : list byte }.
End Exact.
Module Ternary.
Record t := mk { Value : list byte; Mask : list byte }.
End Ternary.
Module LPM.
Record t := mk { Value : list byte; PrefixLen : Z }.
End LPM.
Module Range.
Record t := mk { Low : list byte; High : list byte }.
End Range.
Module Optional.
Record t := mk { Value : list byte }.
End Optional.

Record t := mk { FieldId : Z; FieldMatchType : option isFieldMatch_FieldMatchType }.

(** The generated getters: nil unless the oneof holds that member. *)
Definition GetExact (m : t) : option Exact.t :=
  match FieldMatchType m with Some (Exact_ v) => Some (Exact.mk v) | _ => None end.
Definition GetLpm (m : t) : option LPM.t :=
  match FieldMatchType m with Some (Lpm_ v n) => Some (LPM.mk v n) | _ => None end.
Definition GetRange (m : t) : option Range.t :=
  match FieldMatchType m with Some (Range_ lo hi) => Some (Range.mk lo hi) | _ => None end.
Definition GetTernary (m : t) : option Ternary.t :=
  match FieldMatchType m with Some (Ternary_ v k) => Some (Ternary.mk v k) | _ => None end.
Definition GetOptional (m : t) : option Optional.t :=
  match FieldMatchType m with Some (Optional_ v) => Some (Optional.mk v) | _ => None end.
End FieldMatch.

Module CounterData.
Record t := mk { ByteCount : Z; PacketCount : Z }.
(** [&p4api.CounterData{}] *)
Definition zero : t := mk 0 0.
End CounterData.

Module MeterConfig.
Record t := mk { Cir : Z; Cburst : Z; Pir : Z; Pburst : Z }.
End MeterConfig.

Module MeterCounterData.
Record t := mk {
  Green : option CounterData.t;
  Yellow : option CounterData.t;
  Red : option CounterData.t
}.
End MeterCounterData.

Module TableAction.
Inductive t :=
| Action (ActionId : Z) (Params : list (Z * list byte))
| ActionProfileMemberId (id : Z)
| ActionProfileGroupId (id : Z).
End TableAction.

Module TableEntry.
Record t := mk {
  TableId : Z;
  Match : list FieldMatch.t;
  Action : option TableAction.t;
  Priority : Z;
  MeterConfig : option MeterConfig.t;
  CounterData : option CounterData.t;
  MeterCounterData : option MeterCounterData.t;
  IsDefaultAction : bool
}.
Definition with_Match (ms : list FieldMatch.t) (e : t) : t :=
  mk (TableId e) ms (Action e) (Priority e) (MeterConfig e) (CounterData e)
     (MeterCounterData e) (IsDefaultAction e).
End TableEntry.

Module DirectCounterEntry.
Record t := mk { TableEntry : loc; Data : option CounterData.t }.
End DirectCounterEntry.

Module DirectMeterEntry.
Record t := mk {
  TableEntry : loc;
  Config : option MeterConfig.t;
  CounterData : option MeterCounterData.t
}.
End DirectMeterEntry.

Module Entity.
Inductive t :=
| TableEntry (e : loc)
| DirectCounterEntry (e : DirectCounterEntry.t)
| DirectMeterEntry (e : DirectMeterEntry.t).
End Entity.

End p4api.

(** ** onos-lib-go errors

    An [error] is nil or a typed error; the message is not modelled. *)
Module errors.
Inductive Type_ := NotFound | AlreadyExists | Invalid.
Definition error := option Type_.
Definition NewNotFound : error := Some NotFound.
Definition NewAlreadyExists : error := Some AlreadyExists.
Definition NewInvalid : error := Some Invalid.
End errors.
Export errors(error).
#[global] Instance errors_Type_eq_dec : EqDecision errors.Type_.
Proof. solve_decision. Defined.

(** ** The heap and the monad of the package's methods *)

Record Heap := mkHeap {
  infos : gmap loc p4info.Table.t;
  entries : gmap loc p4api.TableEntry.t
}.

(** A computation reads and writes the heap, or panics. *)
Definition M (A : Type) : Type := Heap -> option (A * Heap).

Definition ret {A} (a : A) : M A := fun h => Some (a, h).
Definition bind {A B} (m : M A) (k : A -> M B) : M B :=
  fun h => match m h with
           | Some (a, h') => k a h'
           | None => None
           end.
Definition panic {A} : M A := fun _ => None.

Notation "'let*' x ':=' c 'in' k" := (bind c (fun x => k))
  (at level 10, x pattern, c at level 100, k at level 200).

(** [p != nil] for a nil-able message pointer held by value. *)
Definition notnil {A} (o : option A) : bool :=
  match o with Some _ => true | None => false end.

Definition loadInfo (p : loc) : M p4info.Table.t :=
  fun h => match infos h !! p with Some x => Some (x, h) | None => None end.
Definition storeInfo (p : loc) (x : p4info.Table.t) : M unit :=
  fun h => Some (tt, mkHeap (<[p := x]> (infos h)) (entries h)).
Definition loadEntry (p : loc) : M p4api.TableEntry.t :=
  fun h => match entries h !! p with Some x => Some (x, h) | None => None end.
Definition storeEntry (p : loc) (x : p4api.TableEntry.t) : M unit :=
  fun h => Some (tt, mkHeap (infos h) (<[p := x]> (entries h))).

(** ** sort.SliceStable

    The library promises a stable sort and nothing about how it gets there;
    the stable sort of a list is unique, and is computed here by insertion.
    [less] compares two elements (the source's closures compare the
    elements at two indices of the slice being sorted). *)
Section SliceStable.
Context {A : Type} (less : A -> A -> bool).

(** [x] goes in front of the first element that is not smaller than it. *)
Fixpoint insertStable (x : A) (l : list A) : list A :=
  match l with
  | [] => [x]
  | y :: l' => if less y x then y :: insertStable x l' else x :: l
  end.

Definition SliceStable (l : list A) : list A := foldr insertStable [] l.
End SliceStable.

(** ** The package *)

(** Row represents table row entry and its mutable direct resources *)
Record Row := mkRow {
  entry : loc;
  counterData : option p4api.CounterData.t;
  meterConfig : option p4api.MeterConfig.t;
  meterData : option p4api.MeterCounterData.t
}.

(** Table represents a single P4 table.  The rows are [*Row] in the source;
    a row pointer lives in exactly one slot ([rows[key]] or [defaultRow]),
    so an assignment through it is an update of that slot. *)
Record Table := mkTable {
  info : loc;
  rows : gmap string Row;
  defaultRow : option Row
}.

(** Tables represents a set of P4 tables *)
Record Tables := mkTables { tables : gmap Z Table }.

Inductive ReadType := ReadTableEntry | ReadDirectCounter | ReadDirectMeter.

Definition set_entry (p : loc) (r : Row) : Row :=
  mkRow p (counterData r) (meterConfig r) (meterData r).
Definition set_counterData (c : option p4api.CounterData.t) (r : Row) : Row :=
  mkRow (entry r) c (meterConfig r) (meterData r).
Definition set_meterConfig (c : option p4api.MeterConfig.t) (r : Row) : Row :=
  mkRow (entry r) (counterData r) c (meterData r).
Definition set_meterData (c : option p4api.MeterCounterData.t) (r : Row) : Row :=
  mkRow (entry r) (counterData r) (meterConfig r) c.
Definition set_rows (m : gmap string Row) (t : Table) : Table :=
  mkTable (info t) m (defaultRow t).
Definition set_defaultRow (r : option Row) (t : Table) : Table :=
  mkTable (info t) (rows t) r.

Import p4api.

(** NewTable creates a new device table: the descriptor's field list is
    sorted where it is, and the table keeps the descriptor's pointer. *)
Definition NewTable (table : loc) : M Table :=
  let* ti := loadInfo table in
  let* _ := storeInfo table
              (p4info.Table.with_MatchFields
                 (SliceStable
                    (fun a b => p4info.MatchField.Id a <? p4info.MatchField.Id b)
                    (p4info.Table.MatchFields ti))
                 ti) in
  ret (mkTable table ∅ None).

(** NewTables creates a new set of tables from the given P4 info descriptor *)
Fixpoint NewTables_range (tablesInfo : list loc) (ts : Tables) : M Tables :=
  match tablesInfo with
  | [] => ret ts
  | ti :: rest =>
      let* t := NewTable ti in
      let* d := loadInfo ti in
      NewTables_range rest
        (mkTables (<[p4info.Preamble.Id (p4info.Table.Preamble d) := t]> (tables ts)))
  end.

Definition NewTables (tablesInfo : list loc) : M Tables :=
  NewTables_range tablesInfo (mkTables ∅).

(** Creates a new table row from the specified table entry *)
Definition newRow (t : Table) (entry : loc) : M Row :=
  let* e := loadEntry entry in
  let row := mkRow entry (Some CounterData.zero) (TableEntry.MeterConfig e) None in
  let row := if notnil (TableEntry.CounterData e)
             then set_counterData (TableEntry.CounterData e) row else row in
  let row := if notnil (TableEntry.MeterCounterData e)
             then set_meterData (TableEntry.MeterCounterData e) row else row in
  ret row.

(** Table returns the table with the specified ID *)
Definition Tables_Table (ts : Tables) (id : Z) : option Table := tables ts !! id.

(** ID returns the table ID *)
Definition Table_ID (t : Table) : M Z :=
  let* ti := loadInfo (info t) in
  ret (p4info.Preamble.Id (p4info.Table.Preamble ti)).

(** Size returns the number of entries in the table *)
Definition Table_Size (t : Table) : nat :=
  if notnil (defaultRow t) then (size (rows t) + 1)%nat else size (rows t).

(** Validates that the specified match corresponds to the expected table schema *)
Definition validateMatch (t : Table) (i : nat) (m : FieldMatch.t) : M error :=
  let* ti := loadInfo (info t) in
  if (length (p4info.Table.MatchFields ti) <=? i)%nat
  then ret errors.NewInvalid
  else ret None.

Definition byte_ (z : Z) : byte := Sha1.Zbyte z.

Definition writeHash {H} `{Hash H} (hash : H) (n : Z) : H :=
  Write hash [byte_ (Z.shiftr (Z.land n 0xff0000) 24);
              byte_ (Z.shiftr (Z.land n 0xff0000) 16);
              byte_ (Z.shiftr (Z.land n 0xff00) 8);
              byte_ (Z.land n 0xff)].

(** The body of the loop of [entryKey] once the match is validated. *)
Definition entryKey_case (hf : sha1_digest) (m : FieldMatch.t) : sha1_digest :=
  match FieldMatch.GetExact m with
  | Some x =>
      let hf := Write hf [x01] in
      Write hf (FieldMatch.Exact.Value x)
  | None =>
  match FieldMatch.GetLpm m with
  | Some x =>
      let hf := Write hf [x02] in
      let hf := writeHash hf (FieldMatch.LPM.PrefixLen x) in
      Write hf (FieldMatch.LPM.Value x)
  | None =>
  match FieldMatch.GetRange m with
  | Some x =>
      let hf := Write hf [x03] in
      let hf := Write hf (FieldMatch.Range.Low x) in
      Write hf (FieldMatch.Range.High x)
  | None =>
  match FieldMatch.GetTernary m with
  | Some x =>
      let hf := Write hf [x04] in
      let hf := Write hf (FieldMatch.Ternary.Mask x) in
      Write hf (FieldMatch.Ternary.Value x)
  | None =>
  match FieldMatch.GetOptional m with
  | Some x =>
      let hf := Write hf [x05] in
      Write hf (FieldMatch.Optional.Value x)
  | None => hf
  end end end end end.

(** [for i, m := range entry.Match], from index [i] on. *)
Fixpoint entryKey_range (t : Table) (i : nat) (ms : list FieldMatch.t)
    (hf : sha1_digest) : M (string * error) :=
  match ms with
  | [] => ret (string_of_list_byte (Sum hf []), None)
  | m :: ms' =>
      let* err := validateMatch t i m in
      match err with
      | Some _ => ret (EmptyString, err)
      | None => entryKey_range t (S i) ms' (entryKey_case hf m)
      end
  end.

(** Produces a table entry key from the hash of its field matches; returns
    error if the matches do not comply with the table schema *)
Definition entryKey (t : Table) (entry : loc) : M (string * error) :=
  let hf := sha1_New in
  let* e := loadEntry entry in
  entryKey_range t 0 (TableEntry.Match e) hf.

(** Sorts the given array of field matches in place based on the field ID.
    The slice is the one held by the entry at [entry]. *)
Definition sortFieldMatches_less (a b : FieldMatch.t) : bool :=
  FieldMatch.FieldId a <? FieldMatch.FieldId b.

Definition sortFieldMatches (entry : loc) : M unit :=
  let* e := loadEntry entry in
  storeEntry entry
    (TableEntry.with_Match (SliceStable sortFieldMatches_less (TableEntry.Match e)) e).

(** ModifyTableEntry inserts or modifies the specified entry *)
Definition Table_ModifyTableEntry (t : Table) (entry : loc) (insert : bool)
    : M (Table * error) :=
  let* e := loadEntry entry in
  if TableEntry.IsDefaultAction e then
    if insert then ret (t, errors.NewInvalid)
    else if (0 <? length (TableEntry.Match e))%nat then ret (t, errors.NewInvalid)
    else
      let* row := newRow t entry in
      ret (set_defaultRow (Some row) t, None)
  else
    let* _ := sortFieldMatches entry in
    let* (key, err) := entryKey t entry in
    if notnil err then ret (t, err)
    else
      let row := rows t !! key in
      let ok := notnil row in
      if ok && insert then ret (t, errors.NewAlreadyExists)
      else if negb ok && negb insert then ret (t, errors.NewNotFound)
      else
        let* (row, t) :=
          (if negb ok && insert then
             let* r := newRow t entry in
             ret (Some r, set_rows (<[key := r]> (rows t)) t)
           else ret (row, t)) in
        match row with
        | None => panic
        | Some r =>
            let* e := loadEntry entry in
            let r := set_entry entry r in
            let r := set_meterConfig (TableEntry.MeterConfig e) r in
            let r := if negb insert && notnil (TableEntry.CounterData e)
                     then set_counterData (TableEntry.CounterData e) r else r in
            ret (set_rows (<[key := r]> (rows t)) t, None)
        end.

(** RemoveTableEntry removes the specified table entry and any direct
    counter data and meter configs for that entry *)
Definition Table_RemoveTableEntry (t : Table) (entry : loc) : M (Table * error) :=
  let* e := loadEntry entry in
  if TableEntry.IsDefaultAction e then ret (t, errors.NewInvalid)
  else
    let* _ := sortFieldMatches entry in
    let* (key, err) := entryKey t entry in
    if notnil err then ret (t, err)
    else ret (set_rows (delete key (rows t)) t, None).

(** ModifyDirectCounterEntry modifies the specified direct counter entry data *)
Definition Table_ModifyDirectCounterEntry (t : Table) (entry : DirectCounterEntry.t)
    : M (Table * error) :=
  let* _ := sortFieldMatches (DirectCounterEntry.TableEntry entry) in
  let* (key, err) := entryKey t (DirectCounterEntry.TableEntry entry) in
  if notnil err then ret (t, err)
  else
    match rows t !! key with
    | None => ret (t, errors.NewNotFound)
    | Some row =>
        ret (set_rows
               (<[key := set_counterData (DirectCounterEntry.Data entry) row]> (rows t)) t,
             None)
    end.

(** ModifyDirectMeterEntry modifies the specified direct meter entry data *)
Definition Table_ModifyDirectMeterEntry (t : Table) (entry : DirectMeterEntry.t)
    : M (Table * error) :=
  let* _ := sortFieldMatches (DirectMeterEntry.TableEntry entry) in
  let* (key, err) := entryKey t (DirectMeterEntry.TableEntry entry) in
  if notnil err then ret (t, err)
  else
    match rows t !! key with
    | None => ret (t, errors.NewNotFound)
    | Some row =>
        ret (set_rows
               (<[key := set_meterConfig (DirectMeterEntry.Config entry) row]> (rows t)) t,
             None)
    end.

(** The registry holds [*Table]: what a method does to the table it was
    handed is written back under the same ID. *)
Definition delegate (ts : Tables) (id : Z) (call : Table -> M (Table * error))
    : M (Tables * error) :=
  match tables ts !! id with
  | None => ret (ts, errors.NewNotFound)
  | Some table =>
      let* (table, err) := call table in
      ret (mkTables (<[id := table]> (tables ts)), err)
  end.



(** ModifyDirectCounterEntry modifies the specified direct counter entry in
    its appropriate table *)
Definition Tables_ModifyDirectCounterEntry (ts : Tables) (entry : DirectCounterEntry.t)
    (insert : bool) : M (Tables * error) :=
  if insert then ret (ts, errors.NewInvalid)
  else
    let* e := loadEntry (DirectCounterEntry.TableEntry entry) in
    delegate ts (TableEntry.TableId e)
      (fun table => Table_ModifyDirectCounterEntry table entry).

(** ModifyDirectMeterEntry modifies the specified direct meter entry in its
    appropriate table *)
Definition Tables_ModifyDirectMeterEntry (ts : Tables) (entry : DirectMeterEntry.t)
    (insert : bool) : M (Tables * error) :=
  if insert then ret (ts, errors.NewInvalid)
  else
    let* e := loadEntry (DirectMeterEntry.TableEntry entry) in
    delegate ts (TableEntry.TableId e)
      (fun table => Table_ModifyDirectMeterEntry table entry).

(** ** Batched reads

    A [BatchSender] is a callback with effects of its own (a gRPC stream in
    the server); [World] is whatever it acts on.  Slices carry their
    capacity; [growslice] is the capacity [append] moves to when the backing
    array is full, which the Go runtime chooses. *)
Section Read.
Context {World : Type} (growslice : nat -> nat).

(** BatchSender is an abstract function for returning batches of read entities *)
Definition BatchSender : Type := list Entity.t -> World -> error * World.

Record slice := mkSlice { elems : list Entity.t; cap : nat }.

Definition len (s : slice) : nat := length (elems s).

Definition append (s : slice) (x : Entity.t) : slice :=
  if (len s <? cap s)%nat then mkSlice (elems s ++ [x]) (cap s)
  else mkSlice (elems s ++ [x]) (growslice (cap s)).

Record entityBuffer := mkBuffer { entities : slice; sender : BatchSender }.

Definition newBuffer (sender : BatchSender) : entityBuffer :=
  mkBuffer (mkSlice [] 64) sender.

(** Flushes the buffer by sending the buffered entities and resets the buffer *)
Definition flush (eb : entityBuffer) (w : World) : entityBuffer * error * World :=
  let '(err, w) := sender eb (elems (entities eb)) w in
  (mkBuffer (mkSlice [] (cap (entities eb))) (sender eb), err, w).

(** Sends the specified entity via an accumulation buffer, flushing when
    buffer reaches capacity *)
Definition sendEntity (eb : entityBuffer) (entity : Entity.t) (w : World)
    : entityBuffer * error * World :=
  let eb := mkBuffer (append (entities eb) entity) (sender eb) in
  if (len (entities eb) =? cap (entities eb))%nat then flush eb w
  else (eb, None, w).

(** Get the entity with the entry typed according to the specified read type *)
Definition getEntry (readType : ReadType) (row : Row) : Entity.t :=
  match readType with
  | ReadDirectCounter =>
      Entity.DirectCounterEntry (DirectCounterEntry.mk (entry row) (counterData row))
  | ReadDirectMeter =>
      Entity.DirectMeterEntry
        (DirectMeterEntry.mk (entry row) (meterConfig row) (meterData row))
  | ReadTableEntry => Entity.TableEntry (entry row)
  end.

Definition tableEntryMatches (t : Table) (request : loc) (entry : loc) : bool := true.

(** [for _, row := range t.rows], over the rows in the order the map
    iteration visits them. *)
Fixpoint ReadTableEntries_range (t : Table) (request : loc) (readType : ReadType)
    (order : list Row) (buffer : entityBuffer) (w : World)
    : entityBuffer * error * World :=
  match order with
  | [] => (buffer, None, w)
  | row :: rest =>
      if tableEntryMatches t request (entry row) then
        let '(buffer, err, w) := sendEntity buffer (getEntry readType row) w in
        if notnil err then (buffer, err, w)
        else ReadTableEntries_range t request readType rest buffer w
      else ReadTableEntries_range t request readType rest buffer w
  end.

(** ReadTableEntries reads the table entries matching the specified table
    entry request.  Go leaves the iteration order of a map open: [order] is
    the one this call happens to take. *)
Definition Table_ReadTableEntries (t : Table) (order : list Row) (request : loc)
    (readType : ReadType) (sender : BatchSender) (w : World) : error * World :=
  let buffer := newBuffer sender in
  let '(buffer, err, w) := ReadTableEntries_range t request readType order buffer w in
  if notnil err then (err, w)
  else
    let '(buffer, err, w) :=
      match defaultRow t with
      | Some row => sendEntity buffer (getEntry readType row) w
      | None => (buffer, None, w)
      end in
    if notnil err then (err, w)
    else
      let '(_, err, w) := flush buffer w in
      (err, w).

End Read.

(** The orders a [range] over the rows of [t] can take. *)
Definition rangeOrder (t : Table) (order : list Row) : Prop :=
  order ≡ₚ (map_to_list (rows t)).*2.

(** The two steps with which every operation on a non-default entry starts:
    put the field matches in canonical order, then derive the key. *)
Definition canonicalKey (t : Table) (entry : loc) : M (string * error) :=
  let* _ := sortFieldMatches entry in
  entryKey t entry.

(** The entry as [sortFieldMatches] leaves it. *)
Definition canonical (e : TableEntry.t) : TableEntry.t :=
  TableEntry.with_Match (SliceStable sortFieldMatches_less (TableEntry.Match e)) e.

(** A run of modifies (not inserts) against one table, errors ignored. *)
Fixpoint modifyEach (entries : list loc) (t : Table) : M Table :=
  match entries with
  | [] => ret t
  | entry :: rest =>
      let* (t, _) := Table_ModifyTableEntry t entry false in
      modifyEach rest t
  end.

(** ** Notions the properties are stated with, and sample data *)

Definition sorted_at (p : loc) (e : TableEntry.t) (h : Heap) : Heap :=
  mkHeap (infos h) (<[p := canonical e]> (entries h)).

Definition lessBy {A} (key : A -> Z) (a b : A) : bool := key a <? key b.
Definition leBy {A} (key : A -> Z) (a b : A) : Prop := key a <= key b.

(** What one field match feeds to the hash, and a whole list of them. *)
Definition matchBytes (m : FieldMatch.t) : list byte :=
  written (entryKey_case sha1_New m).
Definition keyBytes (ms : list FieldMatch.t) : list byte :=
  flat_map matchBytes ms.

(** The outcome of [entryKey] on a table of [n] schema fields. *)
Definition keyOf (n : nat) (ms : list FieldMatch.t) : string * error :=
  if (n <? length ms)%nat then (EmptyString, errors.NewInvalid)
  else (string_of_list_byte (Sha1.sum (keyBytes ms)), None).

(** A field match whose oneof holds none of the five typed members. *)
Definition noPayload (m : FieldMatch.t) : bool :=
  negb (notnil (FieldMatch.GetExact m)) && negb (notnil (FieldMatch.GetLpm m))
  && negb (notnil (FieldMatch.GetRange m)) && negb (notnil (FieldMatch.GetTernary m))
  && negb (notnil (FieldMatch.GetOptional m)).

(** Spec wording (4.4): the sender is invoked on the batches one after the
    other, and its first error aborts the read. *)
Fixpoint spec_deliverBatches {World} (sender : @BatchSender World)
    (batches : list (list Entity.t)) (w : World) : error * World :=
  match batches with
  | [] => (None, w)
  | b :: rest =>
      let '(err, w) := sender b w in
      if notnil err then (err, w) else spec_deliverBatches sender rest w
  end.

(** The full batches a buffer of capacity [n] holding [buf] cuts out of
    [es], and what stays in the buffer. *)
Fixpoint fill (n : nat) (buf es : list Entity.t) : list (list Entity.t) * list Entity.t :=
  match es with
  | [] => ([], buf)
  | e :: es' =>
      if (length (buf ++ [e]) =? n)%nat
      then let '(full, rest) := fill n [] es' in ((buf ++ [e]) :: full, rest)
      else fill n (buf ++ [e]) es'
  end.

(** The entities a read produces: the rows in iteration order, then the
    default row. *)
Definition produced (readType : ReadType) (t : Table) (order : list Row) : list Entity.t :=
  map (getEntry readType) (order ++ match defaultRow t with Some row => [row] | None => [] end).

(** A sender that only records the batches it is given. *)
Definition recorder : @BatchSender (list (list Entity.t)) :=
  fun batch trace => (None, trace ++ [batch]).

(** A two-field table and entries for it. *)
Definition fx_info : p4info.Table.t :=
  p4info.Table.mk (p4info.Preamble.mk 7 "acl")
    [p4info.MatchField.mk 2 "dst" 32; p4info.MatchField.mk 1 "src" 8] 1024.
Definition fx_src : FieldMatch.t := FieldMatch.mk 1 (Some (FieldMatch.Exact_ [x0a])).
Definition fx_dst : FieldMatch.t :=
  FieldMatch.mk 2 (Some (FieldMatch.Lpm_ [x0a; x00; x00; x00] 8)).
Definition fx_entry : TableEntry.t :=
  TableEntry.mk 7 [fx_dst; fx_src] (Some (TableAction.Action 1 [])) 10
    (Some (MeterConfig.mk 1 2 3 4)) (Some (CounterData.mk 5 6)) None false.
Definition fx_default : TableEntry.t :=
  TableEntry.mk 7 [] (Some (TableAction.Action 2 [])) 0 None None None true.
(** Two matches on the same field, in either order. *)
Definition fx_dup1 : FieldMatch.t := FieldMatch.mk 1 (Some (FieldMatch.Exact_ [x01])).
Definition fx_dup2 : FieldMatch.t := FieldMatch.mk 1 (Some (FieldMatch.Exact_ [x02])).
Definition fx_entry12 : TableEntry.t :=
  TableEntry.mk 7 [fx_dup1; fx_dup2] None 0 None None None false.
Definition fx_entry21 : TableEntry.t :=
  TableEntry.mk 7 [fx_dup2; fx_dup1] None 0 None None None false.
(** One match, and the same with an untyped match next to it. *)
Definition fx_untyped : FieldMatch.t := FieldMatch.mk 2 None.
Definition fx_short : TableEntry.t :=
  TableEntry.mk 7 [fx_src] (Some (TableAction.Action 1 [])) 0 None None None false.
Definition fx_long : TableEntry.t :=
  TableEntry.mk 7 [fx_untyped; fx_src] (Some (TableAction.Action 2 [])) 0 None None None false.
Definition fx_heap : Heap :=
  mkHeap {[ 1%positive := fx_info ]}
         {[ 1%positive := fx_entry; 2%positive := fx_default;
            3%positive := fx_entry12; 4%positive := fx_entry21;
            5%positive := fx_short; 6%positive := fx_long ]}.
Definition fx_table : Table := mkTable 1%positive ∅ None.
Definition fx_key : string :=
  (keyOf 2 (SliceStable sortFieldMatches_less (TableEntry.Match fx_entry))).1.
(** The table and heap once [fx_entry] is inserted. *)
Definition fx_row : Row :=
  mkRow 1%positive (Some (CounterData.mk 5 6)) (Some (MeterConfig.mk 1 2 3 4)) None.
Definition fx_table1 : Table := mkTable 1%positive {[ fx_key := fx_row ]} None.
Definition fx_heap1 : Heap := sorted_at 1%positive fx_entry fx_heap.

(** The row [newRow] builds from the entry [e] held at [p]. *)
Definition freshRow (p : loc) (e : TableEntry.t) : Row :=
  mkRow p
    (match TableEntry.CounterData e with
     | Some c => Some c
     | None => Some CounterData.zero
     end)
    (TableEntry.MeterConfig e) (TableEntry.MeterCounterData e).

(** [p] holds a default-action entry without match fields. *)
Definition validDefault (h : Heap) (p : loc) : Prop :=
  exists e, entries h !! p = Some e /\ TableEntry.IsDefaultAction e = true /\
            TableEntry.Match e = [].

Definition fx_counter : DirectCounterEntry.t :=
  DirectCounterEntry.mk 1%positive (Some (CounterData.mk 70 7)).
Definition fx_meter : DirectMeterEntry.t :=
  DirectMeterEntry.mk 1%positive (Some (MeterConfig.mk 9 9 9 9)) None.

(** Spec wording (4.1): the prefix length as the four bytes of the
    big-endian int32. *)
Definition spec_bigEndian32 (n : Z) : list byte :=
  [byte_ (Z.shiftr n 24); byte_ (Z.shiftr n 16); byte_ (Z.shiftr n 8); byte_ n].

(** A table of 130 rows, one per value of the [src] field. *)
Definition fx_row_of (i : nat) : string * Row :=
  ((keyOf 2 [FieldMatch.mk 1 (Some (FieldMatch.Exact_ [byte_ (Z.of_nat i)]))]).1,
   mkRow (Pos.of_nat (10 + i)) (Some CounterData.zero) None None).
Definition fx_table130 : Table :=
  mkTable 1%positive (list_to_map (map fx_row_of (seq 0 130))) None.

(** ** The accessors and the registry-level read *)

(** Name returns the table name *)
Definition Table_Name (t : Table) : M string :=
  let* ti := loadInfo (info t) in
  ret (p4info.Preamble.Name (p4info.Table.Preamble ti)).


(** The orders a [range] over the tables of [ts] can take, each table
    with the order in which its own rows are then visited. *)
Definition tablesOrder (ts : Tables) (visit : list (Table * list Row)) : Prop :=
  visit.*1 ≡ₚ (map_to_list (tables ts)).*2 /\
  Forall (fun v => rangeOrder v.1 v.2) visit.

(** [for _, table := range ts.tables] of the registry's read. *)
Fixpoint Tables_ReadTableEntries_range {World} (growslice : nat -> nat)
    (visit : list (Table * list Row)) (request : loc) (readType : ReadType)
    (sender : @BatchSender World) (w : World) : error * World :=
  match visit with
  | [] => (None, w)
  | (table, order) :: rest =>
      let '(err, w) :=
        Table_ReadTableEntries growslice table order request readType sender w in
      if notnil err then (err, w)
      else Tables_ReadTableEntries_range growslice rest request readType sender w
  end.

(** ReadTableEntries reads the table entries matching the specified table
    entry, from the appropriate table.  [visit] is the iteration the
    wildcard read takes, [order] the one over the rows of the single table
    a non-zero ID names. *)
Definition Tables_ReadTableEntries {World} (growslice : nat -> nat) (ts : Tables)
    (visit : list (Table * list Row)) (order : list Row) (request : loc)
    (readType : ReadType) (sender : @BatchSender World) (w : World)
    : M (error * World) :=
  let* r := loadEntry request in
  if TableEntry.TableId r =? 0 then
    ret (Tables_ReadTableEntries_range growslice visit request readType sender w)
  else
    match tables ts !! TableEntry.TableId r with
    | None => ret (errors.NewNotFound, w)
    | Some table =>
        ret (Table_ReadTableEntries growslice table order request readType sender w)
    end.

(** ** Notions the further properties are stated with *)

(** Every row is stored under the key of the entry it refers to, and that
    entry is a non-default one whose matches are in canonical order. *)
Definition rowsCoherent (t : Table) (h : Heap) : Prop :=
  forall key row,
    rows t !! key = Some row ->
    exists e,
      entries h !! entry row = Some e /\
      TableEntry.IsDefaultAction e = false /\
      StronglySorted (leBy FieldMatch.FieldId) (TableEntry.Match e) /\
      entryKey t (entry row) h = Some ((key, None), h).

(** The descriptor as [NewTable] leaves it. *)
Definition canonicalInfo (d : p4info.Table.t) : p4info.Table.t :=
  p4info.Table.with_MatchFields
    (SliceStable (fun a b => p4info.MatchField.Id a <? p4info.MatchField.Id b)
       (p4info.Table.MatchFields d)) d.

(** The batches of one table's read: full ones of 64, then a shorter last
    one, together the entities [es]. *)
Definition batchesOf (es : list Entity.t) (batches : list (list Entity.t)) : Prop :=
  exists full rest,
    batches = full ++ [rest] /\
    es = concat full ++ rest /\
    Forall (fun b => length b = 64%nat) full /\
    (length rest < 64)%nat.

(** An entry with three matches, one more than [fx_info] has fields. *)
Definition fx_wide : TableEntry.t :=
  TableEntry.mk 7 [fx_dst; fx_src; fx_untyped] None 0 None None None false.
(** [fx_entry] again, as a modify without counter data or meter config. *)
Definition fx_update : TableEntry.t :=
  TableEntry.mk 7 [fx_src; fx_dst] (Some (TableAction.Action 3 [])) 20
    None None (Some (MeterCounterData.mk None None None)) false.
Definition fx_heap2 : Heap :=
  mkHeap (infos fx_heap1)
         (<[7%positive := fx_wide]> (<[8%positive := fx_update]> (entries fx_heap1))).
(** A second descriptor, and a registry of two tables. *)
Definition fx_info9 : p4info.Table.t :=
  p4info.Table.mk (p4info.Preamble.mk 9 "fwd") [p4info.MatchField.mk 1 "port" 9] 16.
(** A read request for every table. *)
Definition fx_wildcard : TableEntry.t :=
  TableEntry.mk 0 [] None 0 None None None false.
(** Two range matches on different bounds that read the same when the
    bounds are put end to end. *)
Definition fx_range12_3 : TableEntry.t :=
  TableEntry.mk 7 [FieldMatch.mk 2 (Some (FieldMatch.Range_ ([x01] ++ [x02]) [x03]))]
    None 0 None None None false.
Definition fx_range1_23 : TableEntry.t :=
  TableEntry.mk 7 [FieldMatch.mk 2 (Some (FieldMatch.Range_ [x01] ([x02] ++ [x03])))]
    None 0 None None None false.
Definition fx_heap3 : Heap :=
  mkHeap (<[2%positive := fx_info9]> (infos fx_heap2))
         (<[9%positive := fx_wildcard]>
            (<[10%positive := fx_range12_3]>
               (<[11%positive := fx_range1_23]> (entries fx_heap2)))).
Definition fx_tables : Tables :=
  mkTables {[ 7 := fx_table1; 9 := mkTable 2%positive ∅ None ]}.

(** * Properties *)

(** ** Sanity of the transcription *)

(** The digests of the empty message and of "abc" (FIPS 180-4, A.1). *)
Example sha1_empty :
  Sha1.sum [] =
    [xda; x39; xa3; xee; x5e; x6b; x4b; x0d; x32; x55;
     xbf; xef; x95; x60; x18; x90; xaf; xd8; x07; x09].
Proof. vm_compute. reflexivity. Qed.

Example sha1_abc :
  Sha1.sum (list_byte_of_string "abc") =
    [xa9; x99; x3e; x36; x47; x06; x81; x6a; xba; x3e;
     x25; x71; x78; x50; xc2; x6c; x9c; xd0; xd8; x9d].
Proof. vm_compute. reflexivity. Qed.

(** Inserting [fx_entry] into the empty table gives [fx_table1], and leaves
    the entry with its matches sorted. *)
Example fx_insert :
  Table_ModifyTableEntry fx_table 1%positive true fx_heap =
    Some ((fx_table1, None), fx_heap1).
Proof. vm_compute. reflexivity. Qed.

Example fx_sorted :
  TableEntry.Match <$> entries fx_heap1 !! 1%positive = Some [fx_src; fx_dst].
Proof. vm_compute. reflexivity. Qed.

(** ** The monad *)

Lemma bind_Some {A B} (m : M A) (k : A -> M B) h a h' :
  m h = Some (a, h') -> bind m k h = k a h'.
Proof. intros E. unfold bind. now rewrite E. Qed.

Lemma bind_inv {A B} (m : M A) (k : A -> M B) h r :
  bind m k h = Some r -> exists a h', m h = Some (a, h') /\ k a h' = Some r.
Proof.
  unfold bind. destruct (m h) as [[a h']|]; [|discriminate].
  intros E. now exists a, h'.
Qed.

Lemma loadEntry_Some h p e : entries h !! p = Some e -> loadEntry p h = Some (e, h).
Proof. intros E. unfold loadEntry. now rewrite E. Qed.

Lemma loadInfo_Some h p x : infos h !! p = Some x -> loadInfo p h = Some (x, h).
Proof. intros E. unfold loadInfo. now rewrite E. Qed.

Lemma loadEntry_inv h p e h' : loadEntry p h = Some (e, h') -> entries h !! p = Some e /\ h' = h.
Proof.
  unfold loadEntry. destruct (entries h !! p); [|discriminate].
  intros [= -> ->]. auto.
Qed.

(** ** Keys *)

Lemma sortFieldMatches_run h p e :
  entries h !! p = Some e -> sortFieldMatches p h = Some (tt, sorted_at p e h).
Proof.
  intros E. unfold sortFieldMatches.
  now rewrite (bind_Some _ _ _ _ _ (loadEntry_Some _ _ _ E)).
Qed.

Lemma validateMatch_heap t i m h r h' : validateMatch t i m h = Some (r, h') -> h' = h.
Proof.
  unfold validateMatch, bind, loadInfo.
  destruct (infos h !! info t); [|discriminate].
  destruct (_ <=? _)%nat; unfold ret; now intros [= _ <-].
Qed.

Lemma entryKey_range_heap t ms : forall i hf h r h',
  entryKey_range t i ms hf h = Some (r, h') -> h' = h.
Proof.
  induction ms as [|m ms IH]; intros i hf h r h'; simpl.
  - unfold ret. now intros [= _ <-].
  - intros E. apply bind_inv in E as (err & h1 & Ev & E).
    apply validateMatch_heap in Ev as ->.
    destruct err.
    + unfold ret in E. now injection E as _ <-.
    + eauto.
Qed.

Lemma entryKey_heap t p h r h' : entryKey t p h = Some (r, h') -> h' = h.
Proof.
  unfold entryKey. intros E. apply bind_inv in E as (e & h1 & El & E).
  apply loadEntry_inv in El as [_ ->]. eauto using entryKey_range_heap.
Qed.

Lemma canonicalKey_inv t p h e r h1 :
  entries h !! p = Some e ->
  canonicalKey t p h = Some (r, h1) ->
  h1 = sorted_at p e h /\ entryKey t p h1 = Some (r, h1).
Proof.
  intros E. unfold canonicalKey.
  rewrite (bind_Some _ _ _ _ _ (sortFieldMatches_run _ _ _ E)).
  intros K. pose proof (entryKey_heap _ _ _ _ _ K) as ->. auto.
Qed.

Lemma sorted_at_lookup p e h : entries (sorted_at p e h) !! p = Some (canonical e).
Proof. apply lookup_insert_eq. Qed.

(** ** What each operation does, given the key *)

Lemma newRow_run t p e h :
  entries h !! p = Some e ->
  newRow t p h =
    Some (mkRow p
            (match TableEntry.CounterData e with
             | Some c => Some c
             | None => Some CounterData.zero
             end)
            (TableEntry.MeterConfig e)
            (TableEntry.MeterCounterData e), h).
Proof.
  intros E. unfold newRow.
  rewrite (bind_Some _ _ _ _ _ (loadEntry_Some _ _ _ E)).
  destruct e as [tid ms act pri mc [c|] [d|] dflt]; reflexivity.
Qed.

Lemma ModifyTableEntry_run t p e h insert key h1 :
  entries h !! p = Some e ->
  TableEntry.IsDefaultAction e = false ->
  canonicalKey t p h = Some ((key, None), h1) ->
  Table_ModifyTableEntry t p insert h =
    match rows t !! key, insert with
    | Some _, true => Some ((t, errors.NewAlreadyExists), h1)
    | None, false => Some ((t, errors.NewNotFound), h1)
    | None, true =>
        Some ((set_rows
                 (<[key := mkRow p
                             (match TableEntry.CounterData e with
                              | Some c => Some c
                              | None => Some CounterData.zero
                              end)
                             (TableEntry.MeterConfig e)
                             (TableEntry.MeterCounterData e)]> (rows t)) t,
               None), h1)
    | Some row, false =>
        Some ((set_rows
                 (<[key := mkRow p
                             (match TableEntry.CounterData e with
                              | Some c => Some c
                              | None => counterData row
                              end)
                             (TableEntry.MeterConfig e)
                             (meterData row)]> (rows t)) t,
               None), h1)
    end.
Proof.
  intros E D K.
  destruct (canonicalKey_inv _ _ _ _ _ _ E K) as [Hh1 _].
  assert (E1 : entries h1 !! p = Some (canonical e))
    by (subst h1; apply sorted_at_lookup).
  unfold Table_ModifyTableEntry.
  rewrite (bind_Some _ _ _ _ _ (loadEntry_Some _ _ _ E)), D.
  unfold canonicalKey in K. unfold bind at 1. unfold bind at 1 in K.
  destruct (sortFieldMatches p h) as [[[] hs]|]; [|discriminate].
  rewrite (bind_Some _ _ _ _ _ K). cbn [notnil].
  destruct (rows t !! key) as [row|], insert; cbn [notnil andb negb]; try reflexivity.
  - rewrite (bind_Some _ _ _ _ _ eq_refl).
    rewrite (bind_Some _ _ _ _ _ (loadEntry_Some _ _ _ E1)).
    destruct e as [tid ms act pri mc [c|] d dflt]; reflexivity.
  - rewrite (bind_Some _ _ _ _ _
               (bind_Some _ _ _ _ _ (newRow_run t _ _ _ E1))).
    unfold ret at 1.
    rewrite (bind_Some _ _ _ _ _ (loadEntry_Some _ _ _ E1)).
    cbn. unfold ret. do 3 f_equal. unfold set_rows; cbn.
    rewrite insert_insert_eq.
    destruct e as [tid ms act pri mc [c|] d dflt]; reflexivity.
Qed.

Lemma RemoveTableEntry_run t p e h key h1 :
  entries h !! p = Some e ->
  TableEntry.IsDefaultAction e = false ->
  canonicalKey t p h = Some ((key, None), h1) ->
  Table_RemoveTableEntry t p h = Some ((set_rows (delete key (rows t)) t, None), h1).
Proof.
  intros E D K. unfold Table_RemoveTableEntry.
  rewrite (bind_Some _ _ _ _ _ (loadEntry_Some _ _ _ E)), D.
  unfold canonicalKey in K. unfold bind at 1. unfold bind at 1 in K.
  destruct (sortFieldMatches p h) as [[[] hs]|]; [|discriminate].
  now rewrite (bind_Some _ _ _ _ _ K).
Qed.

Lemma ModifyDirectCounterEntry_run t (d : DirectCounterEntry.t) h key h1 :
  canonicalKey t (DirectCounterEntry.TableEntry d) h = Some ((key, None), h1) ->
  Table_ModifyDirectCounterEntry t d h =
    match rows t !! key with
    | None => Some ((t, errors.NewNotFound), h1)
    | Some row =>
        Some ((set_rows
                 (<[key := mkRow (entry row) (DirectCounterEntry.Data d)
                             (meterConfig row) (meterData row)]> (rows t)) t,
               None), h1)
    end.
Proof.
  intros K. unfold Table_ModifyDirectCounterEntry.
  unfold canonicalKey in K. unfold bind at 1. unfold bind at 1 in K.
  destruct (sortFieldMatches _ h) as [[[] hs]|]; [|discriminate].
  rewrite (bind_Some _ _ _ _ _ K). cbn [notnil].
  now destruct (rows t !! key).
Qed.

Lemma ModifyDirectMeterEntry_run t (d : DirectMeterEntry.t) h key h1 :
  canonicalKey t (DirectMeterEntry.TableEntry d) h = Some ((key, None), h1) ->
  Table_ModifyDirectMeterEntry t d h =
    match rows t !! key with
    | None => Some ((t, errors.NewNotFound), h1)
    | Some row =>
        Some ((set_rows
                 (<[key := mkRow (entry row) (counterData row)
                             (DirectMeterEntry.Config d) (meterData row)]> (rows t)) t,
               None), h1)
    end.
Proof.
  intros K. unfold Table_ModifyDirectMeterEntry.
  unfold canonicalKey in K. unfold bind at 1. unfold bind at 1 in K.
  destruct (sortFieldMatches _ h) as [[[] hs]|]; [|discriminate].
  rewrite (bind_Some _ _ _ _ _ K). cbn [notnil].
  now destruct (rows t !! key).
Qed.

Lemma ModifyTableEntry_default_run t p e h insert :
  entries h !! p = Some e ->
  TableEntry.IsDefaultAction e = true ->
  Table_ModifyTableEntry t p insert h =
    if insert then Some ((t, errors.NewInvalid), h)
    else match TableEntry.Match e with
         | _ :: _ => Some ((t, errors.NewInvalid), h)
         | [] =>
             Some ((set_defaultRow
                      (Some (mkRow p
                               (match TableEntry.CounterData e with
                                | Some c => Some c
                                | None => Some CounterData.zero
                                end)
                               (TableEntry.MeterConfig e)
                               (TableEntry.MeterCounterData e))) t,
                    None), h)
         end.
Proof.
  intros E D. unfold Table_ModifyTableEntry.
  rewrite (bind_Some _ _ _ _ _ (loadEntry_Some _ _ _ E)), D.
  destruct insert; [reflexivity|].
  destruct (TableEntry.Match e) eqn:Hm; [|reflexivity].
  cbn. now rewrite (bind_Some _ _ _ _ _ (newRow_run t _ _ _ E)).
Qed.

(** ** The stable sort *)

Section SliceStable_facts.
Context {A : Type} (key : A -> Z).
Local Abbreviation less := (lessBy key).
Local Abbreviation le := (leBy key).

Lemma insertStable_Permutation (lt : A -> A -> bool) x l :
  insertStable lt x l ≡ₚ x :: l.
Proof.
  induction l as [|y l IH]; simpl; [done|].
  destruct (lt y x); [|done].
  rewrite IH. apply Permutation_swap.
Qed.

Lemma SliceStable_Permutation (lt : A -> A -> bool) l : SliceStable lt l ≡ₚ l.
Proof.
  induction l as [|x l IH]; simpl; [done|].
  now rewrite insertStable_Permutation, IH.
Qed.

Lemma SliceStable_length (lt : A -> A -> bool) l : length (SliceStable lt l) = length l.
Proof. apply Permutation_length, SliceStable_Permutation. Qed.

Lemma insertStable_first x l :
  Forall (le x) l -> insertStable less x l = x :: l.
Proof.
  destruct 1 as [|y l Hy _]; simpl; [done|].
  unfold lessBy, leBy in *. destruct (Z.ltb_spec (key y) (key x)); [lia|done].
Qed.

Lemma insertStable_sorted x l :
  StronglySorted le l -> StronglySorted le (insertStable less x l).
Proof.
  induction 1 as [|y l Hl IH Hy]; simpl.
  - repeat constructor.
  - unfold lessBy at 1. destruct (Z.ltb_spec (key y) (key x)) as [Hlt|Hge].
    + constructor; [done|].
      rewrite insertStable_Permutation. constructor; [unfold leBy; lia|done].
    + constructor; [by constructor|].
      constructor; [done|].
      eapply Forall_impl; [exact Hy|]. unfold leBy. intros; lia.
Qed.

Lemma SliceStable_sorted l : StronglySorted le (SliceStable less l).
Proof.
  induction l; simpl; [constructor|by apply insertStable_sorted].
Qed.

(** Sorting what is already in order changes nothing. *)
Lemma SliceStable_id l : StronglySorted le l -> SliceStable less l = l.
Proof.
  induction 1 as [|x l Hl IH Hx]; simpl; [done|].
  rewrite IH. by apply insertStable_first.
Qed.

Lemma SliceStable_idem l : SliceStable less (SliceStable less l) = SliceStable less l.
Proof. apply SliceStable_id, SliceStable_sorted. Qed.

(** Stability: the elements a predicate selects come out in the order in
    which sorting them alone would put them. *)
Lemma insertStable_filter (P : A -> bool) x l :
  StronglySorted le l ->
  List.filter P (insertStable less x l) =
    if P x then insertStable less x (List.filter P l) else List.filter P l.
Proof.
  induction 1 as [|y l Hl IH Hy]; simpl.
  - by destruct (P x).
  - unfold lessBy at 1. destruct (Z.ltb_spec (key y) (key x)) as [Hlt|Hge]; simpl.
    + rewrite IH. destruct (P x), (P y); simpl; try done.
      apply Z.ltb_lt in Hlt. unfold lessBy at 2. by rewrite Hlt.
    + destruct (P x) eqn:Px; [|done].
      symmetry. apply insertStable_first.
      assert (Hall : Forall (le x) (y :: l)).
      { constructor; [done|]. eapply Forall_impl; [exact Hy|].
        unfold leBy. intros; lia. }
      change (Forall (le x) (List.filter P (y :: l))).
      apply List.Forall_forall. intros z Hz. apply List.filter_In in Hz as [Hz _].
      by apply (proj1 (List.Forall_forall _ _) Hall).
Qed.

Lemma SliceStable_filter (P : A -> bool) l :
  List.filter P (SliceStable less l) = SliceStable less (List.filter P l).
Proof.
  induction l as [|x l IH]; simpl; [done|].
  rewrite insertStable_filter by apply SliceStable_sorted.
  rewrite IH. by destruct (P x).
Qed.

(** Two orderings of the same matches sort to the same list as soon as the
    sort key tells their elements apart. *)
Lemma SliceStable_Permutation_eq l1 l2 :
  (forall x y, x ∈ l1 -> y ∈ l1 -> key x = key y -> x = y) ->
  l1 ≡ₚ l2 ->
  SliceStable less l1 = SliceStable less l2.
Proof.
  intros Hinj Hp.
  apply (StronglySorted_unique_strong le); try apply SliceStable_sorted.
  - intros x y Hx Hy Hxy Hyx. apply Hinj.
    + by rewrite SliceStable_Permutation in Hx.
    + rewrite SliceStable_Permutation in Hy. by rewrite Hp.
    + unfold leBy in *. lia.
  - by rewrite !SliceStable_Permutation.
Qed.
End SliceStable_facts.

Lemma writeHash_written (hf : sha1_digest) n :
  written (writeHash hf n) =
    written hf ++ [x00; byte_ (Z.shiftr n 16); byte_ (Z.shiftr n 8); byte_ n].
Proof.
  unfold writeHash; cbn [Write sha1_Hash written]. f_equal.
  unfold byte_, Sha1.Zbyte.
  rewrite !Z.shiftr_land, <- !Z.land_assoc.
  change (Z.shiftr 0xff0000 24) with 0. change (Z.shiftr 0xff0000 16) with 0xff.
  change (Z.shiftr 0xff00 8) with 0xff. change (Z.land 0xff 0xff) with 0xff.
  rewrite Z.land_0_r. reflexivity.
Qed.

Lemma entryKey_case_written hf m :
  entryKey_case hf m = mk_sha1 (written hf ++ matchBytes m).
Proof.
  unfold matchBytes, entryKey_case.
  destruct (FieldMatch.GetExact m); [cbn; by rewrite <- app_assoc|].
  destruct (FieldMatch.GetLpm m).
  { cbn [Write sha1_Hash written]. rewrite !writeHash_written.
    cbn [Write sha1_Hash written]. f_equal. by rewrite <- !app_assoc. }
  destruct (FieldMatch.GetRange m); [cbn; by rewrite <- !app_assoc|].
  destruct (FieldMatch.GetTernary m); [cbn; by rewrite <- !app_assoc|].
  destruct (FieldMatch.GetOptional m); [cbn; by rewrite <- !app_assoc|].
  destruct hf; cbn. by rewrite app_nil_r.
Qed.

Lemma matchBytes_noPayload m : noPayload m = true -> matchBytes m = [].
Proof.
  unfold noPayload, matchBytes, entryKey_case.
  destruct (FieldMatch.GetExact m); [done|].
  destruct (FieldMatch.GetLpm m); [done|].
  destruct (FieldMatch.GetRange m); [done|].
  destruct (FieldMatch.GetTernary m); [done|].
  destruct (FieldMatch.GetOptional m); done.
Qed.

Lemma entryKey_range_run t ti h :
  infos h !! info t = Some ti ->
  forall ms i hf,
    (i <= length (p4info.Table.MatchFields ti))%nat ->
    entryKey_range t i ms hf h =
      Some (if (length (p4info.Table.MatchFields ti) <? i + length ms)%nat
            then (EmptyString, errors.NewInvalid)
            else (string_of_list_byte (Sha1.sum (written hf ++ keyBytes ms)), None), h).
Proof.
  intros Hi. induction ms as [|m ms IH]; intros i hf Hle; cbn [entryKey_range length].
  - destruct (Nat.ltb_spec (length (p4info.Table.MatchFields ti)) (i + 0)); [lia|].
    unfold ret. cbn. by rewrite app_nil_r.
  - unfold validateMatch, bind, loadInfo. rewrite Hi.
    destruct (Nat.leb_spec (length (p4info.Table.MatchFields ti)) i) as [Hge|Hlt].
    + unfold ret.
      by destruct (Nat.ltb_spec (length (p4info.Table.MatchFields ti))
                     (i + S (length ms))); [|lia].
    + unfold ret at 1. rewrite IH by lia.
      rewrite entryKey_case_written; cbn [written].
      replace (S i + length ms)%nat with (i + S (length ms))%nat by lia.
      by rewrite <- app_assoc.
Qed.

Lemma entryKey_run t ti h p e :
  infos h !! info t = Some ti ->
  entries h !! p = Some e ->
  entryKey t p h =
    Some (keyOf (length (p4info.Table.MatchFields ti)) (TableEntry.Match e), h).
Proof.
  intros Hi He. unfold entryKey.
  rewrite (bind_Some _ _ _ _ _ (loadEntry_Some _ _ _ He)).
  rewrite (entryKey_range_run _ _ _ Hi) by lia. reflexivity.
Qed.

(** Without a descriptor the first field match panics; no match, no look. *)
Lemma entryKey_run_nil t h p e :
  entries h !! p = Some e ->
  TableEntry.Match e = [] ->
  entryKey t p h = Some (keyOf 0 [], h).
Proof.
  intros He Hm. unfold entryKey.
  rewrite (bind_Some _ _ _ _ _ (loadEntry_Some _ _ _ He)), Hm. reflexivity.
Qed.

Lemma entryKey_run_panic t h p e :
  infos h !! info t = None ->
  entries h !! p = Some e ->
  TableEntry.Match e <> [] ->
  entryKey t p h = None.
Proof.
  intros Hi He Hm. unfold entryKey.
  rewrite (bind_Some _ _ _ _ _ (loadEntry_Some _ _ _ He)).
  destruct (TableEntry.Match e) as [|m ms]; [done|]. simpl.
  unfold validateMatch, bind, loadInfo. by rewrite Hi.
Qed.

Lemma canonicalKey_run t ti h p e :
  infos h !! info t = Some ti ->
  entries h !! p = Some e ->
  canonicalKey t p h =
    Some (keyOf (length (p4info.Table.MatchFields ti))
            (SliceStable sortFieldMatches_less (TableEntry.Match e)),
          sorted_at p e h).
Proof.
  intros Hi He. unfold canonicalKey.
  rewrite (bind_Some _ _ _ _ _ (sortFieldMatches_run _ _ _ He)).
  by rewrite (entryKey_run t ti _ p (canonical e)); [| |apply sorted_at_lookup].
Qed.

Lemma keyBytes_filter ms :
  keyBytes (List.filter (fun m => negb (noPayload m)) ms) = keyBytes ms.
Proof.
  induction ms as [|m ms IH]; simpl; [done|].
  destruct (noPayload m) eqn:E; simpl.
  - by rewrite (matchBytes_noPayload _ E).
  - unfold keyBytes in *. simpl. by rewrite IH.
Qed.

Section Read_facts.
Context {World : Type} (growslice : nat -> nat) (send : @BatchSender World).

Lemma fill_spec n : forall es buf full rest,
  fill n buf es = (full, rest) ->
  concat full ++ rest = buf ++ es /\
  Forall (fun b => length b = n) full /\
  ((length buf < n)%nat -> (length rest < n)%nat).
Proof.
  induction es as [|e es IH]; intros buf full rest; simpl.
  - intros [= <- <-]. by rewrite app_nil_r.
  - destruct (Nat.eqb_spec (length (buf ++ [e])) n) as [Hn|Hn].
    + destruct (fill n [] es) as [full' rest'] eqn:Hf. intros [= <- <-].
      destruct (IH _ _ _ Hf) as (Hc & Hfull & Hrest). simpl in Hc.
      repeat split.
      * simpl. by rewrite <- !app_assoc, Hc.
      * by constructor.
      * intros _. apply Hrest. rewrite length_app in Hn; simpl in *; lia.
    + intros Hf. destruct (IH _ _ _ Hf) as (Hc & Hfull & Hrest).
      repeat split; [by rewrite Hc, <- app_assoc|done|].
      intros Hlt. apply Hrest. rewrite length_app in *; simpl in *; lia.
Qed.

Lemma sendEntity_run buf e w :
  (length buf < 64)%nat ->
  sendEntity growslice (mkBuffer (mkSlice buf 64) send) e w =
    if (length (buf ++ [e]) =? 64)%nat
    then let '(err, w') := send (buf ++ [e]) w in
         (mkBuffer (mkSlice [] 64) send, err, w')
    else (mkBuffer (mkSlice (buf ++ [e]) 64) send, None, w).
Proof.
  intros Hlt. unfold sendEntity, append, len; cbn [entities elems cap sender].
  destruct (Nat.ltb_spec (length buf) 64); [|lia].
  cbn [entities elems cap]. destruct (_ =? _)%nat; [|done].
  unfold flush; cbn [entities elems cap sender]. by destruct (send _ _).
Qed.

Lemma ReadTableEntries_range_run t request readType : forall order buf w,
  (length buf < 64)%nat ->
  ReadTableEntries_range growslice t request readType order
    (mkBuffer (mkSlice buf 64) send) w =
    let '(full, rest) := fill 64 buf (map (getEntry readType) order) in
    let '(err, w') := spec_deliverBatches send full w in
    if notnil err then (mkBuffer (mkSlice [] 64) send, err, w')
    else (mkBuffer (mkSlice rest 64) send, None, w').
Proof.
  induction order as [|row order IH]; intros buf w Hlt;
    cbn [ReadTableEntries_range map fill].
  - done.
  - unfold tableEntryMatches. rewrite sendEntity_run by done.
    destruct (Nat.eqb_spec (length (buf ++ [getEntry readType row])) 64) as [Hn|Hn].
    + destruct (fill 64 [] _) as [full rest] eqn:Hf. cbn [spec_deliverBatches].
      destruct (send _ w) as [[err|] w']; cbn [notnil]; [done|].
      rewrite IH by (simpl; lia). by rewrite Hf.
    + cbn [notnil]. apply IH. rewrite length_app in *; simpl in *; lia.
Qed.

Lemma ReadTableEntries_range_app t request readType :
  forall l1 l2 (buffer : @entityBuffer World) (w : World),
  ReadTableEntries_range growslice t request readType (l1 ++ l2) buffer w =
    let r := ReadTableEntries_range growslice t request readType l1 buffer w in
    if notnil r.1.2 then r
    else ReadTableEntries_range growslice t request readType l2 r.1.1 r.2.
Proof.
  induction l1 as [|row l1 IH]; intros l2 buffer w; cbn [ReadTableEntries_range app].
  - done.
  - unfold tableEntryMatches.
    destruct (sendEntity _ _ _ _) as [[buffer' [err|]] w']; cbn [notnil]; [done|].
    apply IH.
Qed.

Lemma deliverBatches_snoc full last w :
  spec_deliverBatches send (full ++ [last]) w =
    let '(err, w') := spec_deliverBatches send full w in
    if notnil err then (err, w') else send last w'.
Proof.
  revert w. induction full as [|b full IH]; intros w; cbn [spec_deliverBatches app].
  - by destruct (send last w) as [[err|] w'].
  - destruct (send b w) as [[err|] w']; cbn [notnil]; [done|]. apply IH.
Qed.

Lemma Table_ReadTableEntries_range t order request readType w :
  Table_ReadTableEntries growslice t order request readType send w =
    let r := ReadTableEntries_range growslice t request readType
               (order ++ match defaultRow t with Some row => [row] | None => [] end)
               (newBuffer send) w in
    if notnil r.1.2 then (r.1.2, r.2)
    else let '(_, err, w') := flush r.1.1 r.2 in (err, w').
Proof.
  unfold Table_ReadTableEntries. rewrite ReadTableEntries_range_app. cbv zeta.
  destruct (ReadTableEntries_range _ _ _ _ order _ _) as [[buffer [err|]] w'];
    cbn [notnil fst snd]; [done|].
  destruct (defaultRow t) as [row|]; cbn [ReadTableEntries_range fst snd notnil];
    [|done].
  unfold tableEntryMatches.
  by destruct (sendEntity _ _ _ _) as [[buffer' [err|]] w''].
Qed.

Lemma Table_ReadTableEntries_run t order request readType w :
  Table_ReadTableEntries growslice t order request readType send w =
    let '(full, rest) := fill 64 [] (produced readType t order) in
    spec_deliverBatches send (full ++ [rest]) w.
Proof.
  rewrite Table_ReadTableEntries_range. unfold newBuffer, produced.
  rewrite ReadTableEntries_range_run by (simpl; lia).
  destruct (fill 64 [] _) as [full rest]. rewrite deliverBatches_snoc. cbv zeta.
  destruct (spec_deliverBatches send full w) as [[err|] w']; cbn [notnil fst snd];
    [done|].
  unfold flush; cbn. by destruct (send rest w').
Qed.
End Read_facts.

(** ** The insert / modify contract *)



(** C2, as the code has it.  A successful insert creates the row from the
    entry: its counter data is the entry's when the entry carries some and
    the zero value otherwise, its meter config and meter counter data are
    the entry's (absent when the entry has none). *)
Theorem insert_row_overlays t p e h key h1 :
  entries h !! p = Some e ->
  TableEntry.IsDefaultAction e = false ->
  canonicalKey t p h = Some ((key, None), h1) ->
  rows t !! key = None ->
  exists t',
    Table_ModifyTableEntry t p true h = Some ((t', None), h1) /\
    rows t' !! key =
      Some (mkRow p
              (match TableEntry.CounterData e with
               | Some c => Some c
               | None => Some CounterData.zero
               end)
              (TableEntry.MeterConfig e)
              (TableEntry.MeterCounterData e)).
Proof.
  intros E D K Hrow.
  rewrite (ModifyTableEntry_run t p e h true key h1 E D K), Hrow.
  eexists; split; [reflexivity|]. cbn. by rewrite lookup_insert_eq.
Qed.

Lemma insert_row_overlays_witness :
  exists t',
    Table_ModifyTableEntry fx_table 1%positive true fx_heap =
      Some ((t', None), fx_heap1) /\
    rows t' !! fx_key =
      Some (mkRow 1%positive
              (match TableEntry.CounterData fx_entry with
               | Some c => Some c
               | None => Some CounterData.zero
               end)
              (TableEntry.MeterConfig fx_entry)
              (TableEntry.MeterCounterData fx_entry)).
Proof.
  apply (insert_row_overlays fx_table 1%positive fx_entry fx_heap fx_key fx_heap1);
    vm_compute; reflexivity.
Defined.

(** C2 as stated fails: inserting an entry that carries counter data 5/6
    into an empty table leaves a row whose counter data is 5/6, not zero. *)
Lemma insert_stores_counter_data :
  TableEntry.CounterData fx_entry = Some (CounterData.mk 5 6) /\
  rows fx_table !! fx_key = None /\
  exists t' h' row,
    Table_ModifyTableEntry fx_table 1%positive true fx_heap = Some ((t', None), h') /\
    rows t' !! fx_key = Some row /\
    counterData row = Some (CounterData.mk 5 6) /\
    counterData row <> Some CounterData.zero.
Proof.
  split; [reflexivity|]. split; [reflexivity|].
  eexists _, _, _. split; [vm_compute; reflexivity|].
  split; [vm_compute; reflexivity|]. split; [reflexivity|]. discriminate.
Qed.

(** ** The default action *)

Lemma modifyEach_default h : forall ps t,
  Forall (validDefault h) ps ->
  exists t', modifyEach ps t h = Some (t', h) /\
    rows t' = rows t /\ info t' = info t /\
    (ps <> [] -> notnil (defaultRow t') = true).
Proof.
  induction ps as [|p ps IH]; intros t Hall; cbn [modifyEach].
  - exists t. by repeat split.
  - inversion Hall as [|? ? (e & He & Hd & Hm) Hall']; subst.
    unfold bind. rewrite (ModifyTableEntry_default_run t p e h false He Hd), Hm.
    destruct (IH (set_defaultRow (Some (freshRow p e)) t) Hall')
      as (t' & Hrun & Hrows & Hinfo & Hdef).
    exists t'. repeat split; [exact Hrun|done|done|].
    intros _. destruct ps as [|q ps]; [|by apply Hdef].
    cbn in Hrun. unfold ret in Hrun. by injection Hrun as <-.
Qed.

(** C6. A default-action entry is refused as Invalid on insert and when
    it has match fields; otherwise the default row becomes the row newly
    built from the entry, whatever it was before.  After any run of such
    modifies the size is the number of keyed rows plus one. *)
Theorem default_action_contract t h :
  (forall p e,
     entries h !! p = Some e ->
     TableEntry.IsDefaultAction e = true ->
     Table_ModifyTableEntry t p true h = Some ((t, errors.NewInvalid), h) /\
     (TableEntry.Match e <> [] ->
        forall insert,
          Table_ModifyTableEntry t p insert h = Some ((t, errors.NewInvalid), h)) /\
     (TableEntry.Match e = [] ->
        newRow t p h = Some (freshRow p e, h) /\
        Table_ModifyTableEntry t p false h =
          Some ((mkTable (info t) (rows t) (Some (freshRow p e)), None), h) /\
        Table_Size (mkTable (info t) (rows t) (Some (freshRow p e))) =
          S (size (rows t)))) /\
  (forall ps,
     ps <> [] ->
     Forall (validDefault h) ps ->
     exists t', modifyEach ps t h = Some (t', h) /\
       rows t' = rows t /\ Table_Size t' = S (size (rows t))).
Proof.
  split.
  - intros p e E D.
    pose proof (fun insert => ModifyTableEntry_default_run t p e h insert E D) as R.
    repeat split.
    + by rewrite R.
    + intros Hm [|]; rewrite R; [done|]. by destruct (TableEntry.Match e).
    + by apply newRow_run.
    + by rewrite R, H.
    + unfold Table_Size; cbn. lia.
  - intros ps Hne Hall.
    destruct (modifyEach_default h ps t Hall) as (t' & Hrun & Hrows & _ & Hdef).
    exists t'. repeat split; [done..|].
    unfold Table_Size. rewrite (Hdef Hne), Hrows. lia.
Qed.

Lemma default_action_contract_witness :
  Table_ModifyTableEntry fx_table 2%positive false fx_heap =
    Some ((mkTable (info fx_table) (rows fx_table) (Some (freshRow 2%positive fx_default)),
           None), fx_heap) /\
  exists t', modifyEach [2%positive; 2%positive; 2%positive] fx_table fx_heap =
               Some (t', fx_heap) /\
    rows t' = rows fx_table /\ Table_Size t' = S (size (rows fx_table)).
Proof.
  assert (E : entries fx_heap !! 2%positive = Some fx_default) by (vm_compute; reflexivity).
  split.
  - apply (proj1 (default_action_contract fx_table fx_heap) 2%positive fx_default E);
      reflexivity.
  - apply (proj2 (default_action_contract fx_table fx_heap)
             [2%positive; 2%positive; 2%positive]); [discriminate|].
    repeat constructor; exists fx_default; repeat split; (exact E || reflexivity).
Defined.

(** ** Remove *)

(** The key depends on the table through its descriptor only. *)
Lemma entryKey_range_info t t' ms : info t' = info t ->
  forall i hf h, entryKey_range t' i ms hf h = entryKey_range t i ms hf h.
Proof.
  intros Hinfo. induction ms as [|m ms IH]; intros i hf h; cbn [entryKey_range]; [done|].
  unfold validateMatch, bind. rewrite Hinfo.
  destruct (loadInfo (info t) h) as [[ti h0]|]; [|reflexivity].
  destruct (length (p4info.Table.MatchFields ti) <=? i)%nat; [reflexivity|].
  apply IH.
Qed.

Lemma canonicalKey_info t t' p h : info t' = info t ->
  canonicalKey t' p h = canonicalKey t p h.
Proof.
  intros Hinfo. unfold canonicalKey, entryKey, bind.
  destruct (sortFieldMatches p h) as [[[] hs]|]; [|reflexivity].
  destruct (loadEntry p hs) as [[e h0]|]; [|reflexivity].
  by apply entryKey_range_info.
Qed.

(** Deriving the key a second time finds the matches in order already. *)
Lemma canonicalKey_again t p e h r h1 :
  entries h !! p = Some e ->
  canonicalKey t p h = Some (r, h1) ->
  canonicalKey t p h1 = Some (r, h1).
Proof.
  intros E K.
  destruct (canonicalKey_inv _ _ _ _ _ _ E K) as [-> Hk].
  unfold canonicalKey.
  rewrite (bind_Some _ _ _ _ _ (sortFieldMatches_run _ _ _ (sorted_at_lookup p e h))).
  assert (Hs : sorted_at p (canonical e) (sorted_at p e h) = sorted_at p e h).
  { unfold sorted_at; cbn. f_equal. rewrite insert_insert_eq. f_equal.
    unfold canonical, TableEntry.with_Match; cbn. f_equal.
    apply (SliceStable_idem FieldMatch.FieldId). }
  by rewrite Hs.
Qed.

(** C7. Removing a default-action entry is Invalid.  Removing a
    non-default entry whose matches pass validation succeeds whether or not
    its key has a row: a row that is there goes and the row count drops by
    one, otherwise the table is as before; a second remove changes nothing. *)
Theorem remove_idempotent t p e h :
  entries h !! p = Some e ->
  (TableEntry.IsDefaultAction e = true ->
     Table_RemoveTableEntry t p h = Some ((t, errors.NewInvalid), h)) /\
  (TableEntry.IsDefaultAction e = false ->
     forall key h1,
       canonicalKey t p h = Some ((key, None), h1) ->
       exists t',
         Table_RemoveTableEntry t p h = Some ((t', None), h1) /\
         rows t' !! key = None /\
         (forall k, k <> key -> rows t' !! k = rows t !! k) /\
         info t' = info t /\ defaultRow t' = defaultRow t /\
         (is_Some (rows t !! key) -> S (size (rows t')) = size (rows t)) /\
         (rows t !! key = None -> t' = t) /\
         Table_RemoveTableEntry t' p h1 = Some ((t', None), h1)).
Proof.
  intros E. split.
  - intros D. unfold Table_RemoveTableEntry.
    by rewrite (bind_Some _ _ _ _ _ (loadEntry_Some _ _ _ E)), D.
  - intros D key h1 K.
    exists (set_rows (delete key (rows t)) t).
    split; [by apply (RemoveTableEntry_run t p e)|].
    cbn. repeat split.
    + apply lookup_delete_eq.
    + intros k Hk. by apply lookup_delete_ne.
    + intros Hrow. rewrite (map_size_delete_Some _ _ Hrow).
      pose proof (map_size_ne_0_lookup_2 (rows t) key Hrow). lia.
    + intros Hnone. destruct t as [i r d]; unfold set_rows; cbn in *.
      by rewrite delete_id.
    + destruct (canonicalKey_inv _ _ _ _ _ _ E K) as [Hh1 _].
      assert (E1 : entries h1 !! p = Some (canonical e))
        by (subst h1; apply sorted_at_lookup).
      rewrite (RemoveTableEntry_run (set_rows (delete key (rows t)) t) p
                 (canonical e) h1 key h1 E1 D).
      * unfold set_rows; cbn. by rewrite delete_delete_eq.
      * rewrite (canonicalKey_info t) by done. by apply (canonicalKey_again t p e h).
Qed.

Lemma remove_idempotent_witness :
  exists t',
    Table_RemoveTableEntry fx_table1 1%positive fx_heap1 = Some ((t', None), fx_heap1) /\
    S (size (rows t')) = size (rows fx_table1) /\
    Table_RemoveTableEntry t' 1%positive fx_heap1 = Some ((t', None), fx_heap1).
Proof.
  assert (E : entries fx_heap1 !! 1%positive = Some (canonical fx_entry))
    by (vm_compute; reflexivity).
  assert (K : canonicalKey fx_table1 1%positive fx_heap1 = Some ((fx_key, None), fx_heap1))
    by (vm_compute; reflexivity).
  assert (R : is_Some (rows fx_table1 !! fx_key)) by (vm_compute; eauto).
  destruct (proj2 (remove_idempotent fx_table1 1%positive (canonical fx_entry) fx_heap1 E)
              eq_refl fx_key fx_heap1 K)
    as (t' & Hrun & _ & _ & _ & _ & Hsize & _ & Hagain).
  exists t'. split; [exact Hrun|]. split; [exact (Hsize R)|exact Hagain].
Defined.

(** ** Direct resources *)

(** C8. A direct-counter or direct-meter modify fails NotFound when the
    key of the embedded table entry has no row; otherwise it replaces the
    counter data, respectively the meter config, of that row and nothing
    else.  The registry refuses either request as Invalid when it is an
    insert, before it looks at the table. *)
Theorem direct_resource_frame t h :
  (forall (d : DirectCounterEntry.t) key h1,
     canonicalKey t (DirectCounterEntry.TableEntry d) h = Some ((key, None), h1) ->
     (rows t !! key = None ->
        Table_ModifyDirectCounterEntry t d h = Some ((t, errors.NewNotFound), h1)) /\
     (forall row, rows t !! key = Some row ->
        Table_ModifyDirectCounterEntry t d h =
          Some ((mkTable (info t)
                   (<[key := mkRow (entry row) (DirectCounterEntry.Data d)
                               (meterConfig row) (meterData row)]> (rows t))
                   (defaultRow t), None), h1))) /\
  (forall (d : DirectMeterEntry.t) key h1,
     canonicalKey t (DirectMeterEntry.TableEntry d) h = Some ((key, None), h1) ->
     (rows t !! key = None ->
        Table_ModifyDirectMeterEntry t d h = Some ((t, errors.NewNotFound), h1)) /\
     (forall row, rows t !! key = Some row ->
        Table_ModifyDirectMeterEntry t d h =
          Some ((mkTable (info t)
                   (<[key := mkRow (entry row) (counterData row)
                               (DirectMeterEntry.Config d) (meterData row)]> (rows t))
                   (defaultRow t), None), h1))) /\
  (forall ts (d : DirectCounterEntry.t),
     Tables_ModifyDirectCounterEntry ts d true h = Some ((ts, errors.NewInvalid), h)) /\
  (forall ts (d : DirectMeterEntry.t),
     Tables_ModifyDirectMeterEntry ts d true h = Some ((ts, errors.NewInvalid), h)).
Proof.
  repeat split.
  - intros Hrow. by rewrite (ModifyDirectCounterEntry_run t d h key h1), Hrow.
  - intros row Hrow. by rewrite (ModifyDirectCounterEntry_run t d h key h1), Hrow.
  - intros Hrow. by rewrite (ModifyDirectMeterEntry_run t d h key h1), Hrow.
  - intros row Hrow. by rewrite (ModifyDirectMeterEntry_run t d h key h1), Hrow.
Qed.

Lemma direct_resource_frame_witness :
  Table_ModifyDirectCounterEntry fx_table1 fx_counter fx_heap1 =
    Some ((mkTable (info fx_table1)
             (<[fx_key := mkRow (entry fx_row) (DirectCounterEntry.Data fx_counter)
                            (meterConfig fx_row) (meterData fx_row)]> (rows fx_table1))
             (defaultRow fx_table1), None), fx_heap1) /\
  Table_ModifyDirectMeterEntry fx_table fx_meter fx_heap =
    Some ((fx_table, errors.NewNotFound), fx_heap1).
Proof.
  assert (K1 : canonicalKey fx_table1 1%positive fx_heap1 = Some ((fx_key, None), fx_heap1))
    by (vm_compute; reflexivity).
  assert (K0 : canonicalKey fx_table 1%positive fx_heap = Some ((fx_key, None), fx_heap1))
    by (vm_compute; reflexivity).
  split.
  - apply (proj1 (direct_resource_frame fx_table1 fx_heap1) fx_counter fx_key fx_heap1 K1).
    vm_compute; reflexivity.
  - apply (proj1 (proj2 (direct_resource_frame fx_table fx_heap)) fx_meter fx_key fx_heap1 K0).
    reflexivity.
Defined.

(** ** NewTable *)

(** C10, as the code has it.  [NewTable] makes no copy: it sorts the
    match-field list of the descriptor it is given where it stands, stably
    and by field ID, and the table keeps that descriptor's pointer.  The
    descriptor's other fields, the other descriptors and the entries stay as
    they were, and a list already in order is not changed. *)
Theorem NewTable_sorts_in_place h table ti :
  infos h !! table = Some ti ->
  let sorted := SliceStable
                  (fun a b => p4info.MatchField.Id a <? p4info.MatchField.Id b)
                  (p4info.Table.MatchFields ti) in
  NewTable table h =
    Some (mkTable table ∅ None,
          mkHeap (<[table := p4info.Table.mk (p4info.Table.Preamble ti) sorted
                               (p4info.Table.Size ti)]> (infos h))
                 (entries h)) /\
  sorted ≡ₚ p4info.Table.MatchFields ti /\
  StronglySorted (fun a b => p4info.MatchField.Id a <= p4info.MatchField.Id b) sorted /\
  (StronglySorted (fun a b => p4info.MatchField.Id a <= p4info.MatchField.Id b)
     (p4info.Table.MatchFields ti) ->
   NewTable table h = Some (mkTable table ∅ None, h)).
Proof.
  intros Hi sorted.
  assert (R : NewTable table h =
    Some (mkTable table ∅ None,
          mkHeap (<[table := p4info.Table.mk (p4info.Table.Preamble ti) sorted
                               (p4info.Table.Size ti)]> (infos h))
                 (entries h))).
  { unfold NewTable. by rewrite (bind_Some _ _ _ _ _ (loadInfo_Some _ _ _ Hi)). }
  split; [exact R|]. split; [apply SliceStable_Permutation|].
  split; [apply (SliceStable_sorted p4info.MatchField.Id)|].
  intros Hs. rewrite R. subst sorted.
  change (fun a b => p4info.MatchField.Id a <? p4info.MatchField.Id b)
    with (lessBy p4info.MatchField.Id).
  rewrite (SliceStable_id p4info.MatchField.Id) by exact Hs.
  destruct h as [hi he], ti as [pre mfs sz]; cbn in *. by rewrite insert_id.
Qed.

Lemma NewTable_sorts_in_place_witness :
  NewTable 1%positive fx_heap =
    Some (mkTable 1%positive ∅ None,
          mkHeap (<[1%positive :=
                      p4info.Table.mk (p4info.Table.Preamble fx_info)
                        (SliceStable
                           (fun a b => p4info.MatchField.Id a <? p4info.MatchField.Id b)
                           (p4info.Table.MatchFields fx_info))
                        (p4info.Table.Size fx_info)]> (infos fx_heap))
                 (entries fx_heap)).
Proof.
  apply (NewTable_sorts_in_place fx_heap 1%positive fx_info). vm_compute; reflexivity.
Defined.

(** C10 as stated fails: the caller's descriptor, whose fields were listed
    as 2, 1, reads 1, 2 once the table is created. *)
Lemma NewTable_reorders_callers_descriptor :
  exists t h',
    NewTable 1%positive fx_heap = Some (t, h') /\
    (map p4info.MatchField.Id ∘ p4info.Table.MatchFields) <$> infos fx_heap !! 1%positive
      = Some [2; 1] /\
    (map p4info.MatchField.Id ∘ p4info.Table.MatchFields) <$> infos h' !! 1%positive
      = Some [1; 2] /\
    infos h' !! 1%positive <> infos fx_heap !! 1%positive.
Proof.
  eexists _, _. split; [vm_compute; reflexivity|].
  split; [vm_compute; reflexivity|]. split; [vm_compute; reflexivity|].
  vm_compute. discriminate.
Qed.

(** ** Canonical keys *)

Lemma keyOf_length_eq n ms ms' :
  length ms = length ms' -> keyBytes ms = keyBytes ms' -> keyOf n ms = keyOf n ms'.
Proof. intros Hl Hb. unfold keyOf. by rewrite Hl, Hb. Qed.

Lemma canonicalKey_fst t h p e :
  entries h !! p = Some e ->
  fst <$> canonicalKey t p h =
    match infos h !! info t with
    | Some ti =>
        Some (keyOf (length (p4info.Table.MatchFields ti))
                (SliceStable sortFieldMatches_less (TableEntry.Match e)))
    | None =>
        match TableEntry.Match e with
        | [] => Some (keyOf 0 [])
        | _ :: _ => None
        end
    end.
Proof.
  intros E. destruct (infos h !! info t) as [ti|] eqn:Hi.
  - by rewrite (canonicalKey_run t ti h p e).
  - unfold canonicalKey.
    rewrite (bind_Some _ _ _ _ _ (sortFieldMatches_run _ _ _ E)).
    pose proof (sorted_at_lookup p e h) as E'.
    destruct (TableEntry.Match e) as [|m ms] eqn:Hm.
    + rewrite (entryKey_run_nil t (sorted_at p e h) p (canonical e) E'); [done|].
      unfold canonical; cbn. by rewrite Hm.
    + rewrite (entryKey_run_panic t (sorted_at p e h) p (canonical e) Hi E'); [done|].
      unfold canonical; cbn. rewrite Hm. intros Hnil.
      apply (f_equal length) in Hnil. rewrite SliceStable_length in Hnil. done.
Qed.

(** C3, as the code has it.  Two entries whose match lists are orderings
    of one another get the same canonical key provided no two different
    matches of the list carry the same field ID (the stable sort keeps such
    matches in the order it found them).  Two entries with the same match
    list get the same key whatever else they hold, the priority included. *)
Theorem canonicalKey_permutation t h1 h2 p1 p2 e1 e2 :
  infos h1 !! info t = infos h2 !! info t ->
  entries h1 !! p1 = Some e1 ->
  entries h2 !! p2 = Some e2 ->
  (TableEntry.Match e1 ≡ₚ TableEntry.Match e2 ->
   (forall x y, x ∈ TableEntry.Match e1 -> y ∈ TableEntry.Match e1 ->
                FieldMatch.FieldId x = FieldMatch.FieldId y -> x = y) ->
   fst <$> canonicalKey t p1 h1 = fst <$> canonicalKey t p2 h2) /\
  (TableEntry.Match e1 = TableEntry.Match e2 ->
   fst <$> canonicalKey t p1 h1 = fst <$> canonicalKey t p2 h2).
Proof.
  intros Hi E1 E2.
  rewrite (canonicalKey_fst t h1 p1 e1 E1), (canonicalKey_fst t h2 p2 e2 E2), Hi.
  split.
  - intros Hp Hinj. change sortFieldMatches_less with (lessBy FieldMatch.FieldId).
    rewrite (SliceStable_Permutation_eq FieldMatch.FieldId _ _ Hinj Hp).
    destruct (infos h2 !! info t); [done|].
    destruct (TableEntry.Match e1) as [|m ms].
    + apply Permutation_nil in Hp. by rewrite Hp.
    + destruct (TableEntry.Match e2); [|done].
      symmetry in Hp. by apply Permutation_nil_cons in Hp.
  - by intros ->.
Qed.

Lemma canonicalKey_permutation_witness :
  fst <$> canonicalKey fx_table 1%positive fx_heap =
  fst <$> canonicalKey fx_table 1%positive fx_heap1.
Proof.
  assert (E : entries fx_heap !! 1%positive = Some fx_entry) by (vm_compute; reflexivity).
  assert (E1 : entries fx_heap1 !! 1%positive = Some (canonical fx_entry))
    by (vm_compute; reflexivity).
  apply (proj1 (canonicalKey_permutation fx_table fx_heap fx_heap1 1%positive 1%positive
                  fx_entry (canonical fx_entry) eq_refl E E1)).
  - symmetry. apply SliceStable_Permutation.
  - intros x y Hx Hy. cbn in Hx, Hy.
    rewrite !elem_of_cons, elem_of_nil in Hx, Hy.
    destruct Hx as [->|[->|[]]], Hy as [->|[->|[]]]; (reflexivity || discriminate).
Defined.

(** C3 as stated fails: the match lists of [fx_entry12] and [fx_entry21]
    are orderings of one another, both on field 1, and their keys differ. *)
Lemma permuted_matches_distinct_keys :
  TableEntry.Match fx_entry12 ≡ₚ TableEntry.Match fx_entry21 /\
  exists k1 k2 h1 h2,
    canonicalKey fx_table 3%positive fx_heap = Some ((k1, None), h1) /\
    canonicalKey fx_table 4%positive fx_heap = Some ((k2, None), h2) /\
    k1 <> k2.
Proof.
  split; [apply Permutation_swap|].
  eexists _, _, _, _. split; [vm_compute; reflexivity|].
  split; [vm_compute; reflexivity|]. discriminate.
Qed.

Lemma keyBytes_sorted_noPayload M1 M2 x :
  noPayload x = true ->
  keyBytes (SliceStable sortFieldMatches_less (M1 ++ x :: M2)) =
  keyBytes (SliceStable sortFieldMatches_less (M1 ++ M2)).
Proof.
  intros Hx. change sortFieldMatches_less with (lessBy FieldMatch.FieldId).
  rewrite <- (keyBytes_filter (SliceStable _ (M1 ++ x :: M2))).
  rewrite <- (keyBytes_filter (SliceStable _ (M1 ++ M2))).
  rewrite !SliceStable_filter, !List.filter_app. cbn [List.filter].
  by rewrite Hx.
Qed.

Lemma keyBytes_noPayload M1 M2 x :
  noPayload x = true -> keyBytes (M1 ++ x :: M2) = keyBytes (M1 ++ M2).
Proof.
  intros Hx. unfold keyBytes. rewrite !flat_map_app. cbn [flat_map].
  by rewrite (matchBytes_noPayload x Hx).
Qed.

Lemma keyOf_fits n ms :
  (length ms <= n)%nat ->
  keyOf n ms = (string_of_list_byte (Sha1.sum (keyBytes ms)), None).
Proof.
  intros Hle. unfold keyOf. by destruct (Nat.ltb_spec n (length ms)); [lia|].
Qed.

(** C4. A field match without any of the five payloads adds nothing
    to the key: with it put anywhere into the match list of [e1], and the
    longer list still within the schema, [entryKey] gives the same key, with
    or without the canonical sort in front.  So [e2], a different entry,
    finds the row [e1] was inserted as, and a modify with it replaces that
    row's entry while the row count stays. *)
Theorem payloadless_match_ignored t ti h p1 p2 e1 e2 M1 M2 x :
  infos h !! info t = Some ti ->
  entries h !! p1 = Some e1 ->
  entries h !! p2 = Some e2 ->
  p1 <> p2 ->
  TableEntry.IsDefaultAction e1 = false ->
  TableEntry.IsDefaultAction e2 = false ->
  TableEntry.Match e1 = M1 ++ M2 ->
  TableEntry.Match e2 = M1 ++ x :: M2 ->
  noPayload x = true ->
  (length (TableEntry.Match e2) <= length (p4info.Table.MatchFields ti))%nat ->
  e1 <> e2 /\
  (exists k0, entryKey t p1 h = Some ((k0, None), h) /\
              entryKey t p2 h = Some ((k0, None), h)) /\
  exists key,
    canonicalKey t p1 h = Some ((key, None), sorted_at p1 e1 h) /\
    canonicalKey t p2 h = Some ((key, None), sorted_at p2 e2 h) /\
    (rows t !! key = None ->
     exists t1 t2 row1 row2,
       Table_ModifyTableEntry t p1 true h = Some ((t1, None), sorted_at p1 e1 h) /\
       rows t1 !! key = Some row1 /\ entry row1 = p1 /\
       Table_ModifyTableEntry t1 p2 false (sorted_at p1 e1 h) =
         Some ((t2, None), sorted_at p2 e2 (sorted_at p1 e1 h)) /\
       rows t2 !! key = Some row2 /\ entry row2 = p2 /\
       size (rows t2) = size (rows t1)).
Proof.
  intros Hi E1 E2 Hne D1 D2 Hm1 Hm2 Hx Hlen.
  assert (Hlen1 : (length (TableEntry.Match e1) <= length (p4info.Table.MatchFields ti))%nat).
  { rewrite Hm1. rewrite Hm2 in Hlen. rewrite length_app in *. simpl in Hlen. lia. }
  split.
  { intros ->. rewrite Hm1 in Hm2. apply (f_equal length) in Hm2.
    rewrite !length_app in Hm2. simpl in Hm2. lia. }
  split.
  { eexists. rewrite (entryKey_run t ti h p1 e1 Hi E1), (entryKey_run t ti h p2 e2 Hi E2).
    rewrite !keyOf_fits by done. split; [reflexivity|].
    by rewrite Hm1, Hm2, keyBytes_noPayload. }
  set (n := length (p4info.Table.MatchFields ti)) in *.
  set (key := string_of_list_byte
                (Sha1.sum (keyBytes (SliceStable sortFieldMatches_less (TableEntry.Match e1))))).
  assert (K1 : canonicalKey t p1 h = Some ((key, None), sorted_at p1 e1 h)).
  { rewrite (canonicalKey_run t ti h p1 e1 Hi E1).
    by rewrite keyOf_fits by (by rewrite SliceStable_length). }
  assert (K2 : forall t' h', info t' = info t -> infos h' !! info t = Some ti ->
                 entries h' !! p2 = Some e2 ->
                 canonicalKey t' p2 h' = Some ((key, None), sorted_at p2 e2 h')).
  { intros t' h' Ht' Hi' E2'. rewrite <- Ht' in Hi'.
    rewrite (canonicalKey_run t' ti h' p2 e2 Hi' E2').
    rewrite keyOf_fits by (by rewrite SliceStable_length).
    subst key. by rewrite Hm1, Hm2, keyBytes_sorted_noPayload. }
  exists key. split; [exact K1|]. split; [by apply K2|].
  intros Hrow.
  pose proof (ModifyTableEntry_run t p1 e1 h true key _ E1 D1 K1) as R1.
  rewrite Hrow in R1.
  eexists _, _, _, _. split; [exact R1|]. cbn [rows set_rows].
  split; [apply lookup_insert_eq|]. split; [reflexivity|].
  assert (E2' : entries (sorted_at p1 e1 h) !! p2 = Some e2).
  { unfold sorted_at; cbn. by rewrite lookup_insert_ne. }
  match type of R1 with _ = Some ((?t1, _), _) =>
    pose proof (ModifyTableEntry_run t1 p2 e2 (sorted_at p1 e1 h) false key _ E2' D2
                  (K2 t1 (sorted_at p1 e1 h) eq_refl Hi E2')) as R2
  end.
  cbn [rows set_rows] in R2. rewrite lookup_insert_eq in R2.
  split; [exact R2|]. cbn [rows set_rows].
  split; [apply lookup_insert_eq|]. split; [reflexivity|].
  apply map_size_insert_Some. rewrite lookup_insert_eq. eauto.
Qed.

Lemma payloadless_match_ignored_witness :
  fx_short <> fx_long /\
  (exists k0, entryKey fx_table 5%positive fx_heap = Some ((k0, None), fx_heap) /\
              entryKey fx_table 6%positive fx_heap = Some ((k0, None), fx_heap)) /\
  exists key,
    canonicalKey fx_table 5%positive fx_heap =
      Some ((key, None), sorted_at 5%positive fx_short fx_heap) /\
    canonicalKey fx_table 6%positive fx_heap =
      Some ((key, None), sorted_at 6%positive fx_long fx_heap) /\
    (rows fx_table !! key = None ->
     exists t1 t2 row1 row2,
       Table_ModifyTableEntry fx_table 5%positive true fx_heap =
         Some ((t1, None), sorted_at 5%positive fx_short fx_heap) /\
       rows t1 !! key = Some row1 /\ entry row1 = 5%positive /\
       Table_ModifyTableEntry t1 6%positive false (sorted_at 5%positive fx_short fx_heap) =
         Some ((t2, None),
               sorted_at 6%positive fx_long (sorted_at 5%positive fx_short fx_heap)) /\
       rows t2 !! key = Some row2 /\ entry row2 = 6%positive /\
       size (rows t2) = size (rows t1)).
Proof.
  apply (payloadless_match_ignored fx_table fx_info fx_heap 5%positive 6%positive
           fx_short fx_long [] [fx_src] fx_untyped);
    first [ discriminate | vm_compute; reflexivity | vm_compute; lia ].
Defined.

(** C5, at the input where the code departs from it.  [writeHash] masks
    with [0xff0000] before it shifts by 24, so the first byte it writes is 0
    whatever the prefix length: for 16777216 it writes 00 00 00 00 where the
    big-endian int32 is 01 00 00 00, and an LPM match of that prefix length
    feeds the hash what the same match with prefix length 0 feeds it. *)
Theorem writeHash_drops_high_byte :
  written (writeHash sha1_New 16777216) = [x00; x00; x00; x00] /\
  spec_bigEndian32 16777216 = [x01; x00; x00; x00] /\
  (forall hf n, exists b1 b2 b3, written (writeHash hf n) = written hf ++ [x00; b1; b2; b3]) /\
  (forall id v,
     matchBytes (FieldMatch.mk id (Some (FieldMatch.Lpm_ v 16777216))) =
     matchBytes (FieldMatch.mk id (Some (FieldMatch.Lpm_ v 0)))) /\
  (forall n id v,
     keyOf n [FieldMatch.mk id (Some (FieldMatch.Lpm_ v 16777216))] =
     keyOf n [FieldMatch.mk id (Some (FieldMatch.Lpm_ v 0))]).
Proof.
  split; [reflexivity|]. split; [reflexivity|].
  split; [intros hf n; rewrite writeHash_written; eauto|].
  assert (Hb : forall id v,
     matchBytes (FieldMatch.mk id (Some (FieldMatch.Lpm_ v 16777216))) =
     matchBytes (FieldMatch.mk id (Some (FieldMatch.Lpm_ v 0)))) by reflexivity.
  split; [exact Hb|].
  intros n id v. apply keyOf_length_eq; [reflexivity|].
  unfold keyBytes; cbn [flat_map]. by rewrite Hb.
Qed.

(** ** Batched reads *)

Lemma deliverBatches_app {World} (sender : @BatchSender World) pre post w :
  spec_deliverBatches sender (pre ++ post) w =
    let r := spec_deliverBatches sender pre w in
    if notnil r.1 then r else spec_deliverBatches sender post r.2.
Proof.
  revert w. induction pre as [|b pre IH]; intros w; cbn [spec_deliverBatches app]; [done|].
  destruct (sender b w) as [[err|] w']; cbn [notnil]; [done|]. apply IH.
Qed.

Lemma deliverBatches_recorder bs trace :
  spec_deliverBatches recorder bs trace = (None, trace ++ bs).
Proof.
  revert trace. induction bs as [|b bs IH]; intros trace; cbn [spec_deliverBatches].
  - by rewrite app_nil_r.
  - unfold recorder at 1. cbn [notnil]. rewrite IH. by rewrite <- app_assoc.
Qed.

Lemma length_concat_full (n : nat) (full : list (list Entity.t)) :
  Forall (fun b => length b = n) full -> length (concat full) = (n * length full)%nat.
Proof.
  induction 1 as [|b full Hb _ IH]; simpl; [lia|].
  rewrite length_app, IH, Hb. lia.
Qed.

Lemma rangeOrder_length t order : rangeOrder t order -> length order = size (rows t).
Proof.
  unfold rangeOrder. intros ->. by rewrite length_fmap, length_map_to_list.
Qed.

(** C9. With its capacity of 64 the buffer hands the sender a batch of
    exactly 64 entities each time it fills up and is empty afterwards; a
    read delivers the produced entities (the rows in iteration order, then
    the default row) as full batches of 64 followed by one last batch of
    fewer than 64, possibly none, and stops at the first error of the
    sender.  A table of 130 rows and no default row is read in three
    batches of 64, 64 and 2 entities. *)
Theorem batch_read_buffering (growslice : nat -> nat) :
  (forall World (sender : @BatchSender World) buf e w,
     (length buf < 64)%nat ->
     sendEntity growslice (mkBuffer (mkSlice buf 64) sender) e w =
       if (length (buf ++ [e]) =? 64)%nat
       then let '(err, w') := sender (buf ++ [e]) w in
            (mkBuffer (mkSlice [] 64) sender, err, w')
       else (mkBuffer (mkSlice (buf ++ [e]) 64) sender, None, w)) /\
  (forall World (sender : @BatchSender World) t order request readType w,
     exists full rest,
       produced readType t order = concat full ++ rest /\
       Forall (fun b => length b = 64%nat) full /\
       (length rest < 64)%nat /\
       Table_ReadTableEntries growslice t order request readType sender w =
         spec_deliverBatches sender (full ++ [rest]) w /\
       (forall pre b post w1 err w2,
          full ++ [rest] = pre ++ b :: post ->
          spec_deliverBatches sender pre w = (None, w1) ->
          sender b w1 = (Some err, w2) ->
          Table_ReadTableEntries growslice t order request readType sender w =
            (Some err, w2))) /\
  (forall t order request readType,
     rangeOrder t order ->
     size (rows t) = 130%nat ->
     defaultRow t = None ->
     exists trace,
       Table_ReadTableEntries growslice t order request readType recorder [] =
         (None, trace) /\
       map length trace = [64; 64; 2]%nat /\
       concat trace = map (getEntry readType) order).
Proof.
  split; [intros; by apply sendEntity_run|].
  assert (Hread : forall World (sender : @BatchSender World) t order request readType w,
     exists full rest,
       produced readType t order = concat full ++ rest /\
       Forall (fun b => length b = 64%nat) full /\
       (length rest < 64)%nat /\
       Table_ReadTableEntries growslice t order request readType sender w =
         spec_deliverBatches sender (full ++ [rest]) w).
  { intros World sender t order request readType w.
    rewrite Table_ReadTableEntries_run.
    destruct (fill 64 [] (produced readType t order)) as [full rest] eqn:Hf.
    destruct (fill_spec 64 _ _ _ _ Hf) as (Hc & Hfull & Hrest).
    exists full, rest. repeat split; [done|done|apply Hrest; simpl; lia]. }
  split.
  - intros World sender t order request readType w.
    destruct (Hread World sender t order request readType w)
      as (full & rest & Hc & Hfull & Hrest & Hrun).
    exists full, rest. repeat split; [done..|].
    intros pre b post w1 err w2 Hsplit Hpre Hb.
    rewrite Hrun, Hsplit, deliverBatches_app, Hpre. cbn [notnil fst snd spec_deliverBatches].
    by rewrite Hb.
  - intros t order request readType Horder Hsize Hdef.
    destruct (Hread _ recorder t order request readType [])
      as (full & rest & Hc & Hfull & Hrest & Hrun).
    exists (full ++ [rest]).
    rewrite Hrun, deliverBatches_recorder. split; [done|].
    unfold produced in Hc. rewrite Hdef, app_nil_r in Hc.
    assert (Hlen : (64 * length full + length rest = 130)%nat).
    { rewrite <- (length_concat_full 64 full Hfull), <- length_app, <- Hc, length_map.
      by rewrite (rangeOrder_length t order Horder). }
    split; [|by rewrite concat_app, Hc; simpl; rewrite app_nil_r].
    destruct full as [|b1 [|b2 [|b3 full]]]; simpl in Hlen; try lia.
    inversion Hfull as [|? ? H1 Hfull']; subst.
    inversion Hfull' as [|? ? H2 _]; subst.
    cbn. repeat f_equal; lia.
Qed.

Lemma batch_read_buffering_witness :
  exists trace,
    Table_ReadTableEntries (fun c => (2 * c)%nat) fx_table130
      (map_to_list (rows fx_table130)).*2 1%positive ReadDirectCounter recorder [] =
      (None, trace) /\
    map length trace = [64; 64; 2]%nat /\
    concat trace = map (getEntry ReadDirectCounter) (map_to_list (rows fx_table130)).*2.
Proof.
  apply (proj2 (proj2 (batch_read_buffering (fun c => (2 * c)%nat)))).
  - unfold rangeOrder. reflexivity.
  - vm_compute; reflexivity.
  - reflexivity.
Defined.

(** * Further properties *)

(** ** Every case of the table operations *)

Lemma ModifyTableEntry_cases t p e h insert :
  entries h !! p = Some e ->
  TableEntry.IsDefaultAction e = false ->
  Table_ModifyTableEntry t p insert h =
    match canonicalKey t p h with
    | None => None
    | Some ((_, Some err), h1) => Some ((t, Some err), h1)
    | Some ((key, None), h1) =>
        match rows t !! key, insert with
        | Some _, true => Some ((t, errors.NewAlreadyExists), h1)
        | None, false => Some ((t, errors.NewNotFound), h1)
        | None, true => Some ((set_rows (<[key := freshRow p e]> (rows t)) t, None), h1)
        | Some row, false =>
            Some ((set_rows
                     (<[key := mkRow p
                                 (match TableEntry.CounterData e with
                                  | Some c => Some c
                                  | None => counterData row
                                  end)
                                 (TableEntry.MeterConfig e)
                                 (meterData row)]> (rows t)) t,
                   None), h1)
        end
    end.
Proof.
  intros E D.
  destruct (canonicalKey t p h) as [[[key [err|]] h1]|] eqn:K.
  - unfold Table_ModifyTableEntry.
    rewrite (bind_Some _ _ _ _ _ (loadEntry_Some _ _ _ E)), D.
    unfold canonicalKey in K. unfold bind at 1. unfold bind at 1 in K.
    destruct (sortFieldMatches p h) as [[[] hs]|]; [|discriminate].
    by rewrite (bind_Some _ _ _ _ _ K).
  - by rewrite (ModifyTableEntry_run t p e h insert key h1 E D K).
  - unfold Table_ModifyTableEntry.
    rewrite (bind_Some _ _ _ _ _ (loadEntry_Some _ _ _ E)), D.
    unfold canonicalKey in K. unfold bind at 1. unfold bind at 1 in K.
    destruct (sortFieldMatches p h) as [[[] hs]|]; [|reflexivity].
    unfold bind at 1. by rewrite K.
Qed.

Lemma RemoveTableEntry_cases t p e h :
  entries h !! p = Some e ->
  TableEntry.IsDefaultAction e = false ->
  Table_RemoveTableEntry t p h =
    match canonicalKey t p h with
    | None => None
    | Some ((_, Some err), h1) => Some ((t, Some err), h1)
    | Some ((key, None), h1) => Some ((set_rows (delete key (rows t)) t, None), h1)
    end.
Proof.
  intros E D. unfold Table_RemoveTableEntry.
  rewrite (bind_Some _ _ _ _ _ (loadEntry_Some _ _ _ E)), D.
  unfold canonicalKey. unfold bind at 1 3.
  destruct (sortFieldMatches p h) as [[[] hs]|]; [|reflexivity].
  unfold bind. by destruct (entryKey t p hs) as [[[key [err|]] h1]|].
Qed.

Lemma ModifyDirectCounterEntry_cases t (d : DirectCounterEntry.t) h :
  Table_ModifyDirectCounterEntry t d h =
    match canonicalKey t (DirectCounterEntry.TableEntry d) h with
    | None => None
    | Some ((_, Some err), h1) => Some ((t, Some err), h1)
    | Some ((key, None), h1) =>
        match rows t !! key with
        | None => Some ((t, errors.NewNotFound), h1)
        | Some row =>
            Some ((set_rows (<[key := set_counterData (DirectCounterEntry.Data d) row]>
                               (rows t)) t, None), h1)
        end
    end.
Proof.
  unfold Table_ModifyDirectCounterEntry, canonicalKey. unfold bind at 1 3.
  destruct (sortFieldMatches _ h) as [[[] hs]|]; [|reflexivity].
  unfold bind. destruct (entryKey t _ hs) as [[[key [err|]] h1]|]; try reflexivity.
  cbn [notnil]. by destruct (rows t !! key).
Qed.

Lemma ModifyDirectMeterEntry_cases t (d : DirectMeterEntry.t) h :
  Table_ModifyDirectMeterEntry t d h =
    match canonicalKey t (DirectMeterEntry.TableEntry d) h with
    | None => None
    | Some ((_, Some err), h1) => Some ((t, Some err), h1)
    | Some ((key, None), h1) =>
        match rows t !! key with
        | None => Some ((t, errors.NewNotFound), h1)
        | Some row =>
            Some ((set_rows (<[key := set_meterConfig (DirectMeterEntry.Config d) row]>
                               (rows t)) t, None), h1)
        end
    end.
Proof.
  unfold Table_ModifyDirectMeterEntry, canonicalKey. unfold bind at 1 3.
  destruct (sortFieldMatches _ h) as [[[] hs]|]; [|reflexivity].
  unfold bind. destruct (entryKey t _ hs) as [[[key [err|]] h1]|]; try reflexivity.
  cbn [notnil]. by destruct (rows t !! key).
Qed.


(** ** Validation against the schema *)

(** X1. The only thing the key derivation checks is the number of
    matches: it answers Invalid exactly when the entry has more matches than
    the descriptor has fields, whatever their field IDs and types, and in
    either case leaves the entry's matches sorted. *)
Theorem key_validation_is_length_bound t ti h p e :
  infos h !! info t = Some ti ->
  entries h !! p = Some e ->
  exists key,
    canonicalKey t p h =
      Some ((key,
             if (length (p4info.Table.MatchFields ti) <? length (TableEntry.Match e))%nat
             then Some errors.Invalid else None),
            sorted_at p e h) /\
    entries (sorted_at p e h) !! p = Some (canonical e).
Proof.
  intros Hi E. rewrite (canonicalKey_run t ti h p e Hi E).
  unfold keyOf. rewrite SliceStable_length.
  destruct (_ <? _)%nat; eexists; (split; [reflexivity|apply sorted_at_lookup]).
Qed.

Lemma key_validation_is_length_bound_witness :
  exists key,
    canonicalKey fx_table1 7%positive fx_heap2 =
      Some ((key,
             if (length (p4info.Table.MatchFields fx_info) <?
                 length (TableEntry.Match fx_wide))%nat
             then Some errors.Invalid else None),
            sorted_at 7%positive fx_wide fx_heap2) /\
    entries (sorted_at 7%positive fx_wide fx_heap2) !! 7%positive = Some (canonical fx_wide).
Proof.
  apply (key_validation_is_length_bound fx_table1 fx_info fx_heap2 7%positive fx_wide);
    vm_compute; reflexivity.
Defined.

(** X2. An entry with more matches than the table's descriptor has
    fields is refused as Invalid by insert, modify, remove and both
    direct-resource modifies, and the table stays as it was. *)
Theorem oversized_match_list_rejected t ti h p e :
  infos h !! info t = Some ti ->
  entries h !! p = Some e ->
  TableEntry.IsDefaultAction e = false ->
  (length (p4info.Table.MatchFields ti) < length (TableEntry.Match e))%nat ->
  (forall insert,
     Table_ModifyTableEntry t p insert h = Some ((t, errors.NewInvalid), sorted_at p e h)) /\
  Table_RemoveTableEntry t p h = Some ((t, errors.NewInvalid), sorted_at p e h) /\
  (forall data,
     Table_ModifyDirectCounterEntry t (DirectCounterEntry.mk p data) h =
       Some ((t, errors.NewInvalid), sorted_at p e h)) /\
  (forall config data,
     Table_ModifyDirectMeterEntry t (DirectMeterEntry.mk p config data) h =
       Some ((t, errors.NewInvalid), sorted_at p e h)).
Proof.
  intros Hi E D Hlen.
  assert (K : canonicalKey t p h =
                Some ((EmptyString, errors.NewInvalid), sorted_at p e h)).
  { rewrite (canonicalKey_run t ti h p e Hi E). unfold keyOf.
    rewrite SliceStable_length.
    by destruct (Nat.ltb_spec (length (p4info.Table.MatchFields ti))
                   (length (TableEntry.Match e))); [|lia]. }
  repeat split.
  - intros insert. by rewrite (ModifyTableEntry_cases t p e h insert E D), K.
  - by rewrite (RemoveTableEntry_cases t p e h E D), K.
  - intros data. rewrite ModifyDirectCounterEntry_cases. cbn. by rewrite K.
  - intros config data. rewrite ModifyDirectMeterEntry_cases. cbn. by rewrite K.
Qed.

Lemma oversized_match_list_rejected_witness :
  Table_RemoveTableEntry fx_table1 7%positive fx_heap2 =
    Some ((fx_table1, errors.NewInvalid), sorted_at 7%positive fx_wide fx_heap2).
Proof.
  apply (oversized_match_list_rejected fx_table1 fx_info fx_heap2 7%positive fx_wide);
    first [ vm_compute; reflexivity | vm_compute; lia ].
Defined.

(** ** What an operation leaves alone *)





(** ** Modify and the overlays *)

(** X4. A modify of an existing row makes the row refer to the incoming
    entry and takes the entry's meter config even when the entry has none;
    it keeps the row's counter data unless the entry brings some, and never
    touches the row's meter counter data, whatever the entry carries.  No
    other row changes and the row count stays. *)
Theorem modify_keeps_overlays t p e h key h1 row :
  entries h !! p = Some e ->
  TableEntry.IsDefaultAction e = false ->
  canonicalKey t p h = Some ((key, None), h1) ->
  rows t !! key = Some row ->
  exists t' row',
    Table_ModifyTableEntry t p false h = Some ((t', None), h1) /\
    rows t' !! key = Some row' /\
    entry row' = p /\
    meterConfig row' = TableEntry.MeterConfig e /\
    meterData row' = meterData row /\
    counterData row' =
      (if notnil (TableEntry.CounterData e) then TableEntry.CounterData e
       else counterData row) /\
    (forall k, k <> key -> rows t' !! k = rows t !! k) /\
    size (rows t') = size (rows t) /\
    defaultRow t' = defaultRow t.
Proof.
  intros E D K Hrow.
  rewrite (ModifyTableEntry_cases t p e h false E D), K, Hrow.
  eexists _, _. split; [reflexivity|]. cbn [rows set_rows defaultRow].
  split; [apply lookup_insert_eq|]. cbn.
  repeat split.
  - by destruct (TableEntry.CounterData e).
  - intros k Hk. by rewrite lookup_insert_ne.
  - apply map_size_insert_Some. eauto.
Qed.

Lemma modify_keeps_overlays_witness :
  exists t' row',
    Table_ModifyTableEntry fx_table1 8%positive false fx_heap2 =
      Some ((t', None), sorted_at 8%positive fx_update fx_heap2) /\
    rows t' !! fx_key = Some row' /\
    entry row' = 8%positive /\
    meterConfig row' = TableEntry.MeterConfig fx_update /\
    meterData row' = meterData fx_row /\
    counterData row' =
      (if notnil (TableEntry.CounterData fx_update) then TableEntry.CounterData fx_update
       else counterData fx_row) /\
    (forall k, k <> fx_key -> rows t' !! k = rows fx_table1 !! k) /\
    size (rows t') = size (rows fx_table1) /\
    defaultRow t' = defaultRow fx_table1.
Proof.
  apply (modify_keeps_overlays fx_table1 8%positive fx_update fx_heap2 fx_key
           (sorted_at 8%positive fx_update fx_heap2) fx_row); vm_compute; reflexivity.
Defined.

(** ** Insert, then remove *)

(** X5. Removing an entry right after it was inserted gives back the
    table as it was before the insert. *)
Theorem insert_remove_roundtrip t p e h key h1 :
  entries h !! p = Some e ->
  TableEntry.IsDefaultAction e = false ->
  canonicalKey t p h = Some ((key, None), h1) ->
  rows t !! key = None ->
  exists t1,
    Table_ModifyTableEntry t p true h = Some ((t1, None), h1) /\
    Table_Size t1 = S (Table_Size t) /\
    Table_RemoveTableEntry t1 p h1 = Some ((t, None), h1).
Proof.
  intros E D K Hrow.
  rewrite (ModifyTableEntry_cases t p e h true E D), K, Hrow.
  eexists. split; [reflexivity|].
  destruct (canonicalKey_inv _ _ _ _ _ _ E K) as [Hh1 _].
  assert (E1 : entries h1 !! p = Some (canonical e))
    by (subst h1; apply sorted_at_lookup).
  split.
  - unfold Table_Size; cbn. rewrite (map_size_insert_None _ _ _ Hrow).
    destruct (defaultRow t); cbn; lia.
  - rewrite (RemoveTableEntry_cases _ p (canonical e) h1 E1 D).
    rewrite (canonicalKey_info t) by reflexivity.
    rewrite (canonicalKey_again t p e h _ h1 E K).
    cbn. rewrite delete_insert_eq, (delete_id _ _ Hrow). by destruct t.
Qed.

Lemma insert_remove_roundtrip_witness :
  exists t1,
    Table_ModifyTableEntry fx_table 1%positive true fx_heap = Some ((t1, None), fx_heap1) /\
    Table_Size t1 = S (Table_Size fx_table) /\
    Table_RemoveTableEntry t1 1%positive fx_heap1 = Some ((fx_table, None), fx_heap1).
Proof.
  apply (insert_remove_roundtrip fx_table 1%positive fx_entry fx_heap fx_key fx_heap1);
    vm_compute; reflexivity.
Defined.

(** ** The rows and their keys *)



Lemma canonical_sorted e :
  StronglySorted (leBy FieldMatch.FieldId) (TableEntry.Match e) -> canonical e = e.
Proof.
  intros Hs. unfold canonical, TableEntry.with_Match.
  change sortFieldMatches_less with (lessBy FieldMatch.FieldId).
  rewrite (SliceStable_id FieldMatch.FieldId _ Hs). by destruct e.
Qed.

Lemma sorted_at_sorted p e h :
  entries h !! p = Some e ->
  StronglySorted (leBy FieldMatch.FieldId) (TableEntry.Match e) ->
  sorted_at p e h = h.
Proof.
  intros E Hs. unfold sorted_at. rewrite (canonical_sorted e Hs), (insert_id _ _ _ E).
  by destruct h.
Qed.





Lemma fx_table1_coherent : rowsCoherent fx_table1 fx_heap1.
Proof.
  intros key row Hrow.
  change (({[ fx_key := fx_row ]} : gmap string Row) !! key = Some row) in Hrow.
  apply lookup_singleton_Some in Hrow as [<- <-].
  exists (canonical fx_entry). split; [vm_compute; reflexivity|].
  split; [reflexivity|]. split; [|vm_compute; reflexivity].
  apply (SliceStable_sorted FieldMatch.FieldId).
Qed.


(** X7. In a coherent table a stored entry leads back to its own row:
    deriving the key of the entry a row refers to gives the key the row is
    stored under and changes nothing, an insert of it is refused as
    AlreadyExists, and a remove of it deletes that row and no other. *)
Theorem stored_entry_finds_its_row t h key row :
  rowsCoherent t h ->
  rows t !! key = Some row ->
  canonicalKey t (entry row) h = Some ((key, None), h) /\
  Table_ModifyTableEntry t (entry row) true h = Some ((t, errors.NewAlreadyExists), h) /\
  exists t',
    Table_RemoveTableEntry t (entry row) h = Some ((t', None), h) /\
    rows t' !! key = None /\
    (forall k, k <> key -> rows t' !! k = rows t !! k) /\
    S (Table_Size t') = Table_Size t.
Proof.
  intros Hc Hrow. destruct (Hc key row Hrow) as (e & E & D & Hs & K).
  assert (Kc : canonicalKey t (entry row) h = Some ((key, None), h)).
  { unfold canonicalKey.
    rewrite (bind_Some _ _ _ _ _ (sortFieldMatches_run _ _ _ E)).
    by rewrite (sorted_at_sorted _ e h E Hs). }
  split; [exact Kc|]. split.
  - by rewrite (ModifyTableEntry_cases t _ e h true E D), Kc, Hrow.
  - rewrite (RemoveTableEntry_cases t _ e h E D), Kc.
    eexists. split; [reflexivity|]. cbn [rows set_rows].
    split; [apply lookup_delete_eq|]. split.
    + intros k Hk. by apply lookup_delete_ne.
    + unfold Table_Size; cbn [rows set_rows defaultRow].
      rewrite (map_size_delete_Some key (rows t)) by eauto.
      pose proof (map_size_ne_0_lookup_2 (rows t) key ltac:(eauto)).
      destruct (defaultRow t); cbn; lia.
Qed.

Lemma stored_entry_finds_its_row_witness :
  canonicalKey fx_table1 (entry fx_row) fx_heap1 = Some ((fx_key, None), fx_heap1) /\
  Table_ModifyTableEntry fx_table1 (entry fx_row) true fx_heap1 =
    Some ((fx_table1, errors.NewAlreadyExists), fx_heap1) /\
  exists t',
    Table_RemoveTableEntry fx_table1 (entry fx_row) fx_heap1 = Some ((t', None), fx_heap1) /\
    rows t' !! fx_key = None /\
    (forall k, k <> fx_key -> rows t' !! k = rows fx_table1 !! k) /\
    S (Table_Size t') = Table_Size fx_table1.
Proof.
  apply (stored_entry_finds_its_row fx_table1 fx_heap1 fx_key fx_row fx_table1_coherent).
  vm_compute; reflexivity.
Defined.

(** ** Reads *)

(** What a read hands to a sender that only records. *)
Lemma read_recorder growslice t order request readType trace :
  exists batches,
    Table_ReadTableEntries growslice t order request readType recorder trace =
      (None, trace ++ batches) /\
    batchesOf (produced readType t order) batches.
Proof.
  rewrite Table_ReadTableEntries_run.
  destruct (fill 64 [] (produced readType t order)) as [full rest] eqn:Hf.
  destruct (fill_spec 64 _ _ _ _ Hf) as (Hc & Hfull & Hrest).
  exists (full ++ [rest]). rewrite deliverBatches_recorder. split; [done|].
  exists full, rest. repeat split; [done|done|]. apply Hrest. simpl. lia.
Qed.


Lemma produced_length readType t order :
  rangeOrder t order -> length (produced readType t order) = Table_Size t.
Proof.
  intros Ho. unfold produced, Table_Size.
  rewrite length_map, length_app, (rangeOrder_length t order Ho).
  destruct (defaultRow t); simpl; lia.
Qed.





(** ** The registry *)




(** ** The registry's read *)

Lemma Tables_ReadTableEntries_range_recorder growslice request readType :
  forall visit trace,
    exists traces,
      Tables_ReadTableEntries_range growslice visit request readType recorder trace =
        (None, trace ++ concat traces) /\
      Forall2 (fun v batches => batchesOf (produced readType v.1 v.2) batches)
        visit traces.
Proof.
  induction visit as [|[table order] visit IH]; intros trace;
    cbn [Tables_ReadTableEntries_range].
  - exists []. split; [by rewrite app_nil_r|constructor].
  - destruct (read_recorder growslice table order request readType trace)
      as (batches & Hrun & Hb).
    rewrite Hrun. cbn [notnil].
    destruct (IH (trace ++ batches)) as (traces & Hrest & Hall).
    exists (batches :: traces). split.
    + rewrite Hrest. cbn [concat]. by rewrite app_assoc.
    + by constructor.
Qed.

(** X11. The registry's read.  A request for an unknown non-zero table
    ID is NotFound and the sender is not called.  A request with table ID 0
    reads the tables one after the other, each with a final batch of its
    own: no batch mixes entities of two tables, and a registry of [n] tables
    makes at least [n] calls of the sender, [n] empty batches when all the
    tables are empty.  The first table whose read fails ends the read. *)
Theorem registry_read growslice ts h request r :
  entries h !! request = Some r ->
  (forall World (sender : @BatchSender World) visit order readType w,
     TableEntry.TableId r <> 0 ->
     tables ts !! TableEntry.TableId r = None ->
     Tables_ReadTableEntries growslice ts visit order request readType sender w h =
       Some ((errors.NewNotFound, w), h)) /\
  (forall visit order readType,
     TableEntry.TableId r = 0 ->
     exists traces,
       Tables_ReadTableEntries growslice ts visit order request readType recorder [] h =
         Some ((None, concat traces), h) /\
       Forall2 (fun v batches => batchesOf (produced readType v.1 v.2) batches)
         visit traces /\
       (length visit <= length (concat traces))%nat /\
       (Forall (fun v => produced readType v.1 v.2 = []) visit ->
        concat traces = replicate (length visit) [])) /\
  (forall World (sender : @BatchSender World) pre table order0 post order readType w w1 err w2,
     TableEntry.TableId r = 0 ->
     Tables_ReadTableEntries_range growslice pre request readType sender w = (None, w1) ->
     Table_ReadTableEntries growslice table order0 request readType sender w1 =
       (Some err, w2) ->
     Tables_ReadTableEntries growslice ts (pre ++ (table, order0) :: post) order request
       readType sender w h = Some ((Some err, w2), h)).
Proof.
  intros E. split; [|split].
  - intros World sender visit order readType w Hid Hnone.
    unfold Tables_ReadTableEntries.
    rewrite (bind_Some _ _ _ _ _ (loadEntry_Some _ _ _ E)).
    destruct (Z.eqb_spec (TableEntry.TableId r) 0); [done|]. by rewrite Hnone.
  - intros visit order readType Hid. unfold Tables_ReadTableEntries.
    rewrite (bind_Some _ _ _ _ _ (loadEntry_Some _ _ _ E)), Hid. cbn [Z.eqb].
    destruct (Tables_ReadTableEntries_range_recorder growslice request readType visit [])
      as (traces & Hrun & Hall).
    exists traces. rewrite Hrun. split; [done|]. split; [done|].
    clear Hrun. induction Hall as [|v batches visit traces Hb Hall IH]; [by split|].
    destruct IH as [IHlen IHnil].
    destruct Hb as (full & rest & -> & Hes & Hfull & Hrest). split.
    + cbn [concat length]. rewrite !length_app. simpl. lia.
    + intros Hempty. inversion Hempty as [|? ? Hv Hempty']; subst.
      rewrite Hv in Hes. symmetry in Hes. apply app_eq_nil in Hes as [Hc ->].
      destruct full as [|b full]; [|exfalso].
      * cbn. by rewrite IHnil.
      * inversion Hfull as [|? ? Hb _]; subst. simpl in Hc.
        apply app_eq_nil in Hc as [-> _]. simpl in Hb. lia.
  - intros World sender pre table order0 post order readType w w1 err w2 Hid Hpre Hfail.
    unfold Tables_ReadTableEntries.
    rewrite (bind_Some _ _ _ _ _ (loadEntry_Some _ _ _ E)), Hid. cbn [Z.eqb].
    unfold ret. do 2 f_equal.
    revert w Hpre. induction pre as [|[t0 o0] pre IH]; intros w Hpre;
      cbn [Tables_ReadTableEntries_range app] in *.
    + simplify_eq. by rewrite Hfail.
    + destruct (Table_ReadTableEntries growslice t0 o0 request readType sender w)
        as [[e0|] w0]; cbn [notnil] in *; [done|]. by apply IH.
Qed.

Lemma registry_read_witness :
  exists traces,
    Tables_ReadTableEntries (fun c => c) fx_tables
      [(fx_table1, [fx_row]); (mkTable 2%positive ∅ None, [])] []
      9%positive ReadTableEntry recorder [] fx_heap3 =
      Some ((None, concat traces), fx_heap3) /\
    (2 <= length (concat traces))%nat.
Proof.
  assert (E : entries fx_heap3 !! 9%positive = Some fx_wildcard) by (vm_compute; reflexivity).
  destruct (proj1 (proj2 (registry_read (fun c => c) fx_tables fx_heap3 9%positive
                            fx_wildcard E))
              [(fx_table1, [fx_row]); (mkTable 2%positive ∅ None, [])] []
              ReadTableEntry eq_refl)
    as (traces & Hrun & _ & Hlen & _).
  exists traces. split; [exact Hrun|exact Hlen].
Defined.

(** ** Building the registry *)

Lemma NewTable_run h p d :
  infos h !! p = Some d ->
  NewTable p h =
    Some (mkTable p ∅ None, mkHeap (<[p := canonicalInfo d]> (infos h)) (entries h)).
Proof.
  intros Hi. unfold NewTable. by rewrite (bind_Some _ _ _ _ _ (loadInfo_Some _ _ _ Hi)).
Qed.

Lemma canonicalInfo_idem d : canonicalInfo (canonicalInfo d) = canonicalInfo d.
Proof.
  unfold canonicalInfo, p4info.Table.with_MatchFields. cbn. f_equal.
  apply (SliceStable_idem p4info.MatchField.Id).
Qed.

Lemma NewTables_range_spec : forall l ts h,
  Forall (fun p => is_Some (infos h !! p)) l ->
  exists ts' h',
    NewTables_range l ts h = Some (ts', h') /\
    entries h' = entries h /\
    (forall p, p ∉ l -> infos h' !! p = infos h !! p) /\
    (forall p d, p ∈ l -> infos h !! p = Some d ->
       infos h' !! p = Some (canonicalInfo d) /\
       is_Some (tables ts' !! p4info.Preamble.Id (p4info.Table.Preamble d))) /\
    (forall id t, tables ts' !! id = Some t ->
       tables ts !! id = Some t \/
       (rows t = ∅ /\ defaultRow t = None /\ info t ∈ l /\
        exists d, infos h !! info t = Some d /\
                  p4info.Preamble.Id (p4info.Table.Preamble d) = id)) /\
    (forall id, is_Some (tables ts !! id) -> is_Some (tables ts' !! id)).
Proof.
  induction l as [|p l IH]; intros ts h Hall; cbn [NewTables_range].
  - exists ts, h. unfold ret. split; [done|]. split; [done|]. split; [done|].
    split; [intros q d Hq; by apply elem_of_nil in Hq|]. split; [by left|done].
  - inversion Hall as [|? ? [d Hd] Hall']; subst.
    set (h1 := mkHeap (<[p := canonicalInfo d]> (infos h)) (entries h)).
    set (id0 := p4info.Preamble.Id (p4info.Table.Preamble d)).
    set (ts1 := mkTables (<[id0 := mkTable p ∅ None]> (tables ts))).
    assert (Hall1 : Forall (fun q => is_Some (infos h1 !! q)) l).
    { eapply Forall_impl; [exact Hall'|]. intros q Hq. cbn.
      destruct (decide (q = p)) as [->|Hne];
        [rewrite lookup_insert_eq; eauto|by rewrite lookup_insert_ne]. }
    destruct (IH ts1 h1 Hall1) as (ts' & h' & Hrun & He & Hout & Hin & Htab & Hmono).
    exists ts', h'. split.
    { rewrite (bind_Some _ _ _ _ _ (NewTable_run h p d Hd)).
      assert (Hl : loadInfo p h1 = Some (canonicalInfo d, h1))
        by (apply loadInfo_Some; cbn; apply lookup_insert_eq).
      rewrite (bind_Some _ _ _ _ _ Hl). exact Hrun. }
    split; [by rewrite He|].
    assert (Hat : forall q dq, infos h !! q = Some dq ->
              exists d1, infos h1 !! q = Some d1 /\
                         canonicalInfo d1 = canonicalInfo dq /\
                         p4info.Table.Preamble d1 = p4info.Table.Preamble dq).
    { intros q dq Hq. cbn. destruct (decide (q = p)) as [->|Hne].
      - rewrite lookup_insert_eq. assert (dq = d) as -> by congruence.
        exists (canonicalInfo d). split; [done|]. by rewrite canonicalInfo_idem.
      - rewrite lookup_insert_ne by done. eauto. }
    split; [|split; [|split]].
    + intros q Hq. apply not_elem_of_cons in Hq as [Hne Hq].
      rewrite (Hout q Hq). cbn. by rewrite lookup_insert_ne.
    + intros q dq Hq Hdq. destruct (Hat q dq Hdq) as (d1 & Hd1 & Hc1 & Hp1).
      destruct (decide (q ∈ l)) as [Hql|Hql].
      * destruct (Hin q d1 Hql Hd1) as [Hh' Hsome]. rewrite Hc1, Hp1 in *. by split.
      * apply elem_of_cons in Hq as [->|Hq]; [|done].
        assert (dq = d) as -> by congruence. split.
        -- rewrite (Hout p Hql). cbn. apply lookup_insert_eq.
        -- apply Hmono. cbn. fold id0. rewrite lookup_insert_eq. eauto.
    + intros id t Ht. destruct (Htab id t Ht) as [Hold|(Hr & Hdf & Hi & d1 & Hd1 & Hid)].
      * cbn in Hold. destruct (decide (id = id0)) as [->|Hne].
        -- rewrite lookup_insert_eq in Hold. simplify_eq. right. cbn.
           repeat split; [by left|]. eauto.
        -- rewrite lookup_insert_ne in Hold by done. by left.
      * right. repeat split; [done|done|by right|].
        cbn in Hd1. destruct (decide (info t = p)) as [Hp|Hne].
        -- rewrite Hp in *. rewrite lookup_insert_eq in Hd1. simplify_eq. eauto.
        -- rewrite lookup_insert_ne in Hd1 by done. eauto.
    + intros id Hid. apply Hmono. cbn. destruct (decide (id = id0)) as [->|Hne];
        [rewrite lookup_insert_eq; eauto|by rewrite lookup_insert_ne].
Qed.

Lemma NewTables_range_panic : forall l ts h p,
  p ∈ l -> infos h !! p = None -> NewTables_range l ts h = None.
Proof.
  induction l as [|q l IH]; intros ts h p Hp Hnone; [by apply elem_of_nil in Hp|].
  cbn [NewTables_range]. destruct (infos h !! q) as [d|] eqn:Hq.
  - apply elem_of_cons in Hp as [->|Hp]; [congruence|].
    rewrite (bind_Some _ _ _ _ _ (NewTable_run h q d Hq)).
    assert (Hl : loadInfo q (mkHeap (<[q := canonicalInfo d]> (infos h)) (entries h)) =
                   Some (canonicalInfo d,
                         mkHeap (<[q := canonicalInfo d]> (infos h)) (entries h)))
      by (apply loadInfo_Some; cbn; apply lookup_insert_eq).
    rewrite (bind_Some _ _ _ _ _ Hl). apply (IH _ _ p Hp). cbn.
    rewrite lookup_insert_ne; [done|]. intros ->. congruence.
  - unfold bind, NewTable, bind, loadInfo. by rewrite Hq.
Qed.



(** ** Sorting the matches *)



(** ** What the key does not tell apart *)

Lemma insertStable_Forall2 {A} (key : A -> Z) (R : A -> A -> Prop) x y l1 l2 :
  (forall a b, R a b -> key a = key b) ->
  R x y -> Forall2 R l1 l2 ->
  Forall2 R (insertStable (lessBy key) x l1) (insertStable (lessBy key) y l2).
Proof.
  intros Hkey Hxy Hl. induction Hl as [|a b l1 l2 Hab Hl IH]; simpl.
  - by repeat constructor.
  - unfold lessBy at 1 3. rewrite (Hkey _ _ Hab), (Hkey _ _ Hxy).
    destruct (key b <? key y); by repeat constructor.
Qed.

Lemma SliceStable_Forall2 {A} (key : A -> Z) (R : A -> A -> Prop) l1 l2 :
  (forall a b, R a b -> key a = key b) ->
  Forall2 R l1 l2 ->
  Forall2 R (SliceStable (lessBy key) l1) (SliceStable (lessBy key) l2).
Proof.
  intros Hkey Hl. induction Hl; simpl; [constructor|].
  by apply insertStable_Forall2.
Qed.

Lemma keyBytes_Forall2 l1 l2 :
  Forall2 (fun a b => FieldMatch.FieldId a = FieldMatch.FieldId b /\
                      matchBytes a = matchBytes b) l1 l2 ->
  keyBytes l1 = keyBytes l2.
Proof.
  unfold keyBytes. induction 1 as [|a b l1 l2 [_ Hab] _ IH]; simpl; [done|].
  by rewrite Hab, IH.
Qed.

Lemma canonicalKey_same_bytes t ti h p1 p2 e1 e2 :
  infos h !! info t = Some ti ->
  entries h !! p1 = Some e1 ->
  entries h !! p2 = Some e2 ->
  Forall2 (fun a b => FieldMatch.FieldId a = FieldMatch.FieldId b /\
                      matchBytes a = matchBytes b)
    (TableEntry.Match e1) (TableEntry.Match e2) ->
  fst <$> canonicalKey t p1 h = fst <$> canonicalKey t p2 h.
Proof.
  intros Hi E1 E2 Hall.
  rewrite (canonicalKey_run t ti h p1 e1 Hi E1), (canonicalKey_run t ti h p2 e2 Hi E2).
  cbn. f_equal. apply keyOf_length_eq.
  - rewrite !SliceStable_length. by apply Forall2_length in Hall.
  - apply keyBytes_Forall2.
    change sortFieldMatches_less with (lessBy FieldMatch.FieldId).
    apply SliceStable_Forall2; [by intros a b [? _]|done].
Qed.

Lemma Forall2_same_context (R : FieldMatch.t -> FieldMatch.t -> Prop) M1 M2 a b :
  (forall m, R m m) -> R a b -> Forall2 R (M1 ++ a :: M2) (M1 ++ b :: M2).
Proof.
  intros Hrefl Hab. apply Forall2_app; [|constructor; [done|]];
    by apply Forall_Forall2_diag, Forall_forall.
Qed.

(** X14. The payload bytes go into the hash one after the other with
    nothing between them, and the field ID does not go in at all.  So a
    range match keeps its key when bytes move from the end of the low bound
    to the front of the high bound, a ternary match when they move from the
    mask to the value, and, the matches taken in the order they stand in,
    a match when it is filed under any other field ID. *)
Theorem key_conflates_matches t ti h p1 p2 e1 e2 M1 M2 :
  infos h !! info t = Some ti ->
  entries h !! p1 = Some e1 ->
  entries h !! p2 = Some e2 ->
  (forall id a b c,
     TableEntry.Match e1 = M1 ++ FieldMatch.mk id (Some (FieldMatch.Range_ (a ++ b) c)) :: M2 ->
     TableEntry.Match e2 = M1 ++ FieldMatch.mk id (Some (FieldMatch.Range_ a (b ++ c))) :: M2 ->
     fst <$> canonicalKey t p1 h = fst <$> canonicalKey t p2 h) /\
  (forall id a b c,
     TableEntry.Match e1 =
       M1 ++ FieldMatch.mk id (Some (FieldMatch.Ternary_ c (a ++ b))) :: M2 ->
     TableEntry.Match e2 =
       M1 ++ FieldMatch.mk id (Some (FieldMatch.Ternary_ (b ++ c) a)) :: M2 ->
     fst <$> canonicalKey t p1 h = fst <$> canonicalKey t p2 h) /\
  (forall id1 id2 payload,
     TableEntry.Match e1 = M1 ++ FieldMatch.mk id1 payload :: M2 ->
     TableEntry.Match e2 = M1 ++ FieldMatch.mk id2 payload :: M2 ->
     fst <$> entryKey t p1 h = fst <$> entryKey t p2 h).
Proof.
  intros Hi E1 E2. split; [|split].
  - intros id a b c H1 H2. apply (canonicalKey_same_bytes t ti h p1 p2 e1 e2 Hi E1 E2).
    rewrite H1, H2. apply Forall2_same_context; [done|]. split; [done|].
    unfold matchBytes; cbn. by rewrite <- !app_assoc.
  - intros id a b c H1 H2. apply (canonicalKey_same_bytes t ti h p1 p2 e1 e2 Hi E1 E2).
    rewrite H1, H2. apply Forall2_same_context; [done|]. split; [done|].
    unfold matchBytes; cbn. by rewrite <- !app_assoc.
  - intros id1 id2 payload H1 H2.
    rewrite (entryKey_run t ti h p1 e1 Hi E1), (entryKey_run t ti h p2 e2 Hi E2).
    cbn. f_equal. rewrite H1, H2. apply keyOf_length_eq.
    + by rewrite !length_app.
    + unfold keyBytes. rewrite !flat_map_app. by cbn [flat_map].
Qed.

Lemma key_conflates_matches_witness :
  fst <$> canonicalKey fx_table 10%positive fx_heap3 =
  fst <$> canonicalKey fx_table 11%positive fx_heap3.
Proof.
  assert (Hi : infos fx_heap3 !! info fx_table = Some fx_info) by (vm_compute; reflexivity).
  assert (E1 : entries fx_heap3 !! 10%positive = Some fx_range12_3)
    by (vm_compute; reflexivity).
  assert (E2 : entries fx_heap3 !! 11%positive = Some fx_range1_23)
    by (vm_compute; reflexivity).
  exact (proj1 (key_conflates_matches fx_table fx_info fx_heap3 10%positive 11%positive
                  fx_range12_3 fx_range1_23 [] [] Hi E1 E2)
           2 [x01] [x02] [x03] eq_refl eq_refl).
Defined.

(** ** The prefix length *)

Lemma byteZ_Zbyte z : Sha1.byteZ (Sha1.Zbyte z) = Z.land z 255.
Proof.
  unfold Sha1.byteZ, Sha1.Zbyte.
  assert (Hr : 0 <= Z.land z 255 < 256).
  { change 255 with (Z.ones 8). rewrite Z.land_ones by lia. apply Z.mod_pos_bound. lia. }
  destruct (Byte.of_N (Z.to_N (Z.land z 255))) as [b|] eqn:Hb.
  - apply Byte.to_of_N in Hb. rewrite Hb. lia.
  - apply Byte.of_N_None_iff in Hb. lia.
Qed.

Lemma land_255 z : Z.land z 255 = z mod 256.
Proof. change 255 with (Z.ones 8). by rewrite Z.land_ones by lia. Qed.

(** X15. For a prefix length from 0 to 16777215, every length a prefix
    can have among them, [writeHash] writes the four bytes of the
    big-endian int32, and two such lengths are written differently. *)
Theorem writeHash_small_prefix (hf : sha1_digest) n :
  0 <= n < 16777216 ->
  written (writeHash hf n) = written hf ++ spec_bigEndian32 n /\
  forall m, 0 <= m < 16777216 ->
    written (writeHash hf m) = written (writeHash hf n) -> m = n.
Proof.
  intros Hn.
  assert (Hhigh : forall k, 0 <= k < 16777216 -> byte_ (Z.shiftr k 24) = x00).
  { intros k Hk. rewrite Z.shiftr_div_pow2 by lia.
    by rewrite Z.div_small by (change (2 ^ 24) with 16777216; lia). }
  split.
  - rewrite writeHash_written. unfold spec_bigEndian32. by rewrite Hhigh.
  - intros m Hm Heq. rewrite !writeHash_written in Heq.
    apply app_inv_head in Heq. injection Heq as H16 H8 H0.
    apply (f_equal Sha1.byteZ) in H16, H8, H0. unfold byte_ in *.
    rewrite !byteZ_Zbyte, !land_255, !Z.shiftr_div_pow2 in * by lia.
    change (2 ^ 16) with 65536 in *. change (2 ^ 8) with 256 in *.
    assert (Hsmall : forall k, 0 <= k < 16777216 -> (k / 65536) mod 256 = k / 65536).
    { intros k Hk. apply Z.mod_small. split; [apply Z.div_pos; lia|].
      apply Z.div_lt_upper_bound; lia. }
    rewrite (Hsmall m Hm), (Hsmall n Hn) in H16.
    pose proof (Z.div_mod m 256 ltac:(lia)). pose proof (Z.div_mod n 256 ltac:(lia)).
    pose proof (Z.div_mod (m / 256) 256 ltac:(lia)).
    pose proof (Z.div_mod (n / 256) 256 ltac:(lia)).
    rewrite !Z.div_div in * by lia. change (256 * 256) with 65536 in *. lia.
Qed.

Lemma writeHash_small_prefix_witness :
  written (writeHash sha1_New 24) = (written sha1_New ++ spec_bigEndian32 24)%list.
Proof.
  apply (writeHash_small_prefix sha1_New 24). lia.
Defined.

(** ** Insert, then read *)



(** ** How many batches *)

(** X17. A read that the sender lets run to its end calls it once more
    than the table has full batches of 64: [Size / 64 + 1] times, the last
    time with the [Size mod 64] entities that are left, none when the size
    is a multiple of 64. *)
Theorem read_batch_count growslice t order request readType :
  rangeOrder t order ->
  exists full last,
    Table_ReadTableEntries growslice t order request readType recorder [] =
      (None, full ++ [last]) /\
    length (full ++ [last]) = (Table_Size t / 64 + 1)%nat /\
    Forall (fun b => length b = 64%nat) full /\
    length last = (Table_Size t mod 64)%nat.
Proof.
  intros Ho.
  destruct (read_recorder growslice t order request readType [])
    as (batches & Hrun & full & rest & -> & Hes & Hfull & Hrest).
  exists full, rest. split; [exact Hrun|].
  assert (Hlen : Table_Size t = (64 * length full + length rest)%nat).
  { rewrite <- (produced_length readType t order Ho), Hes, length_app.
    by rewrite (length_concat_full 64 full Hfull). }
  assert (Hdiv : (Table_Size t / 64 = length full)%nat).
  { symmetry. apply (Nat.div_unique _ 64 _ (length rest)); lia. }
  assert (Hmod : (Table_Size t mod 64 = length rest)%nat).
  { symmetry. apply (Nat.mod_unique _ 64 (length full)); lia. }
  rewrite length_app, Hdiv, Hmod. simpl. split; [lia|]. by split.
Qed.

Lemma read_batch_count_witness :
  exists full last,
    Table_ReadTableEntries (fun c => c) fx_table130 (map_to_list (rows fx_table130)).*2
      1%positive ReadDirectMeter recorder [] = (None, full ++ [last]) /\
    length (full ++ [last]) = (Table_Size fx_table130 / 64 + 1)%nat /\
    Forall (fun b => length b = 64%nat) full /\
    length last = (Table_Size fx_table130 mod 64)%nat.
Proof.
  apply (read_batch_count (fun c => c) fx_table130). unfold rangeOrder. reflexivity.
Defined.

(** ** The tables of a new registry *)

(** X18. Every table of a registry built by [NewTables] answers [ID]
    with the ID it is registered under, and [Name] with the name of a
    descriptor of that ID. *)
Theorem registry_tables_know_their_ID tablesInfo h ts h' id t :
  NewTables tablesInfo h = Some (ts, h') ->
  tables ts !! id = Some t ->
  Table_ID t h' = Some (id, h') /\
  exists d, infos h !! info t = Some d /\
    p4info.Preamble.Id (p4info.Table.Preamble d) = id /\
    Table_Name t h' = Some (p4info.Preamble.Name (p4info.Table.Preamble d), h').
Proof.
  intros Hrun Ht.
  assert (Hall : Forall (fun p => is_Some (infos h !! p)) tablesInfo).
  { apply Forall_forall. intros p Hp. destruct (infos h !! p) eqn:Hi; [eauto|].
    unfold NewTables in Hrun.
    by rewrite (NewTables_range_panic tablesInfo (mkTables ∅) h p Hp Hi) in Hrun. }
  destruct (NewTables_range_spec tablesInfo (mkTables ∅) h Hall)
    as (ts0 & h0 & Hrun0 & _ & _ & Hin & Htab & _).
  unfold NewTables in Hrun. rewrite Hrun0 in Hrun. simplify_eq.
  destruct (Htab id t Ht) as [Hold|(_ & _ & Hi & d & Hd & Hid)].
  { cbn in Hold. by rewrite lookup_empty in Hold. }
  destruct (Hin (info t) d Hi Hd) as [Hd' _].
  split; [|exists d; split; [done|split; [done|]]].
  - unfold Table_ID. rewrite (bind_Some _ _ _ _ _ (loadInfo_Some _ _ _ Hd')).
    unfold ret. cbn. by rewrite Hid.
  - unfold Table_Name. by rewrite (bind_Some _ _ _ _ _ (loadInfo_Some _ _ _ Hd')).
Qed.

Lemma registry_tables_know_their_ID_witness :
  exists ts h' t,
    NewTables [1%positive; 2%positive] fx_heap3 = Some (ts, h') /\
    tables ts !! 9 = Some t /\
    Table_ID t h' = Some (9, h').
Proof.
  destruct (NewTables [1%positive; 2%positive] fx_heap3) as [[ts h']|] eqn:Hrun;
    [|vm_compute in Hrun; discriminate].
  destruct (tables ts !! 9) as [t|] eqn:Ht.
  - exists ts, h', t. split; [reflexivity|]. split; [exact Ht|].
    exact (proj1 (registry_tables_know_their_ID _ _ _ _ _ _ Hrun Ht)).
  - exfalso. vm_compute in Hrun. injection Hrun as <- <-. vm_compute in Ht. discriminate.
Defined.
